(** * ChannelGuardYT: the credential store and the PIN authenticator

    A shallow embedding of [modules/hashUtils.js], [modules/indexedDBService.js]
    and of the background script's message listener, with the properties the
    specification states about them.

    Conventions.
    - A JavaScript string is a [string]: a sequence of code units, here the
      code units below 256 (ISO 8859-1), on which [toLowerCase] and
      [TextEncoder.encode] are given exactly.
    - A [Uint8Array] is a [list Z] of values in [0, 256).
    - An [async] function is a computation over the [World]: the module
      variable [db], the persistent database and the fate of the storage
      requests still to come.  It settles as [Resolved], [Rejected] or stays
      [Pending]. *)

From Stdlib Require Import ZArith Ascii String List Bool Lia Sorted.
From stdpp Require Import gmap strings list.
Import ListNotations.

Local Open Scope string_scope.
Local Open Scope list_scope.
Local Open Scope Z_scope.

(* ===================================================================== *)
(** ** The JavaScript built-ins used by the sources *)
(* ===================================================================== *)

Module JS.

(** Code unit of a character. *)
Definition charCode (c : ascii) : Z := Z.of_N (N_of_ascii c).

Definition fromCharCode (z : Z) : ascii := ascii_of_N (Z.to_N z).

(** [String.prototype.toLowerCase] on one code unit below 256: the letters
    A-Z and the capital letters of U+00C0..U+00DE (U+00D7, the
    multiplication sign, is no letter) move up by 32; everything else is
    its own lower case. *)
Definition lowerChar (c : ascii) : ascii :=
  let u := charCode c in
  if ((65 <=? u) && (u <=? 90))
     || ((192 <=? u) && (u <=? 222) && negb (u =? 215))
  then fromCharCode (u + 32)
  else c.

Fixpoint toLowerCase (s : string) : string :=
  match s with
  | EmptyString => EmptyString
  | String c rest => String (lowerChar c) (toLowerCase rest)
  end.

(** [new TextEncoder().encode(s)]: the UTF-8 bytes of [s].  A code unit
    below 128 is one byte, one in 128..255 is two. *)
Definition utf8Char (c : ascii) : list Z :=
  let u := charCode c in
  if u <? 128 then [u]
  else [Z.lor 192 (Z.shiftr u 6); Z.lor 128 (Z.land u 63)].

Fixpoint TextEncoder_encode (s : string) : list Z :=
  match s with
  | EmptyString => []
  | String c rest => utf8Char c ++ TextEncoder_encode rest
  end.

(** One digit of [Number.prototype.toString(radix)]: 0-9 then a-z. *)
Definition digitChar (d : Z) : ascii :=
  if d <? 10 then fromCharCode (48 + d) else fromCharCode (87 + d).

Fixpoint toStringDigits (fuel : nat) (radix n : Z) (acc : string) : string :=
  match fuel with
  | O => String (digitChar (n mod radix)) acc
  | S fuel' =>
      if n <? radix then String (digitChar n) acc
      else toStringDigits fuel' radix (n / radix)
             (String (digitChar (n mod radix)) acc)
  end.

(** [n.toString(radix)] for a non-negative integer [n] and [2 <= radix]:
    the digits of [n], most significant first, no leading zero. *)
Definition Number_toString (n radix : Z) : string :=
  toStringDigits (Z.to_nat (Z.log2 n)) radix n "".

Fixpoint repeatString (n : nat) (s : string) : string :=
  match n with
  | O => ""
  | S n' => String.append s (repeatString n' s)
  end.

Fixpoint takeString (n : nat) (s : string) : string :=
  match n, s with
  | S n', String c rest => String c (takeString n' rest)
  | _, _ => ""
  end.

(** [s.padStart(targetLength, padString)]. *)
Definition padStart (targetLength : nat) (padString s : string) : string :=
  let len := String.length s in
  if (targetLength <=? len)%nat then s
  else match padString with
       | EmptyString => s
       | _ =>
           let fillLen := (targetLength - len)%nat in
           String.append (takeString fillLen (repeatString fillLen padString)) s
       end.

(** [parts.join("")]. *)
Definition join_empty (parts : list string) : string :=
  fold_right String.append "" parts.

End JS.

(* ===================================================================== *)
(** ** [crypto.subtle.digest("SHA-256", _)] (FIPS 180-4) *)
(* ===================================================================== *)

Module SubtleCrypto.

Definition wrap32 (x : Z) : Z := x mod 2 ^ 32.

Definition add32 (x y : Z) : Z := wrap32 (x + y).

Definition rotr (n x : Z) : Z :=
  Z.lor (Z.shiftr x n) (wrap32 (Z.shiftl x (32 - n))).

Definition not32 (x : Z) : Z := Z.lxor x 0xffffffff.

Definition Ch (x y z : Z) : Z := Z.lxor (Z.land x y) (Z.land (not32 x) z).

Definition Maj (x y z : Z) : Z :=
  Z.lxor (Z.lxor (Z.land x y) (Z.land x z)) (Z.land y z).

Definition bigSigma0 (x : Z) : Z :=
  Z.lxor (Z.lxor (rotr 2 x) (rotr 13 x)) (rotr 22 x).

Definition bigSigma1 (x : Z) : Z :=
  Z.lxor (Z.lxor (rotr 6 x) (rotr 11 x)) (rotr 25 x).

Definition smallSigma0 (x : Z) : Z :=
  Z.lxor (Z.lxor (rotr 7 x) (rotr 18 x)) (Z.shiftr x 3).

Definition smallSigma1 (x : Z) : Z :=
  Z.lxor (Z.lxor (rotr 17 x) (rotr 19 x)) (Z.shiftr x 10).

(** The first sixty-four primes. *)
Definition primes : list Z :=
  [ 2; 3; 5; 7; 11; 13; 17; 19; 23; 29; 31; 37; 41; 43; 47; 53; 59; 61; 67;
    71; 73; 79; 83; 89; 97; 101; 103; 107; 109; 113; 127; 131; 137; 139; 149;
    151; 157; 163; 167; 173; 179; 181; 191; 193; 197; 199; 211; 223; 227; 229;
    233; 239; 241; 251; 257; 263; 269; 271; 277; 281; 283; 293; 307; 311 ].

(** The integer cube root, by bisection: the result [r] is between [lo]
    and [hi] and has [r ^ 3 <= n < (r + 1) ^ 3]. *)
Fixpoint cbrt_between (fuel : nat) (lo hi n : Z) : Z :=
  match fuel with
  | O => lo
  | S fuel' =>
      let mid := (lo + hi) / 2 in
      if mid * mid * mid <=? n then cbrt_between fuel' mid hi n
      else cbrt_between fuel' lo mid n
  end.

(** The first 32 bits of the fractional part of the cube root, and of the
    square root, of [p]. *)
Definition cbrt_fraction (p : Z) : Z :=
  wrap32 (cbrt_between 40 0 (2 ^ 36) (p * 2 ^ 96)).

Definition sqrt_fraction (p : Z) : Z := wrap32 (Z.sqrt (p * 2 ^ 64)).

Definition K : list Z := Eval vm_compute in map cbrt_fraction primes.

(** The eight working variables, and the hash value, as one record. *)
Record Regs : Type := mkRegs {
  ra : Z; rb : Z; rc : Z; rd : Z; re : Z; rf : Z; rg : Z; rh : Z
}.

Definition H0 : Regs :=
  Eval vm_compute in
    mkRegs (sqrt_fraction 2) (sqrt_fraction 3) (sqrt_fraction 5) (sqrt_fraction 7)
           (sqrt_fraction 11) (sqrt_fraction 13) (sqrt_fraction 17) (sqrt_fraction 19).

(** The low [count] bytes of [x], the most significant first. *)
Definition be_bytes (count : nat) (x : Z) : list Z :=
  map (fun i => Z.land (Z.shiftr x (8 * Z.of_nat i)) 255) (rev (seq 0 count)).

(** Padding: a 1 bit, zeros up to 56 modulo 64, the bit length on 8 bytes. *)
Definition pad (msg : list Z) : list Z :=
  let len := Z.of_nat (length msg) in
  let zeros := Z.to_nat ((55 - len) mod 64) in
  msg ++ [128] ++ repeat 0 zeros ++ be_bytes 8 (8 * len).

Definition be_word (b0 b1 b2 b3 : Z) : Z :=
  Z.lor (Z.lor (Z.shiftl b0 24) (Z.shiftl b1 16)) (Z.lor (Z.shiftl b2 8) b3).

(** The big-endian words of a byte sequence; [fuel] bounds the number of
    words read. *)
Fixpoint words (fuel : nat) (bytes : list Z) : list Z :=
  match fuel, bytes with
  | S fuel', b0 :: b1 :: b2 :: b3 :: rest =>
      be_word b0 b1 b2 b3 :: words fuel' rest
  | _, _ => []
  end.

(** The message schedule: [window] holds the last sixteen words. *)
Fixpoint schedule (n : nat) (window : list Z) : list Z :=
  match n with
  | O => []
  | S n' =>
      let w := add32 (add32 (smallSigma1 (nth 14 window 0)) (nth 9 window 0))
                     (add32 (smallSigma0 (nth 1 window 0)) (nth 0 window 0)) in
      w :: schedule n' (tl window ++ [w])
  end.

Definition round (r : Regs) (kw : Z * Z) : Regs :=
  let t1 := add32 (add32 (add32 (rh r) (bigSigma1 (re r)))
                         (add32 (Ch (re r) (rf r) (rg r)) (fst kw))) (snd kw) in
  let t2 := add32 (bigSigma0 (ra r)) (Maj (ra r) (rb r) (rc r)) in
  mkRegs (add32 t1 t2) (ra r) (rb r) (rc r) (add32 (rd r) t1) (re r) (rf r) (rg r).

Definition compress (h : Regs) (block : list Z) : Regs :=
  let w := block ++ schedule 48 block in
  let r := fold_left round (combine K w) h in
  mkRegs (add32 (ra h) (ra r)) (add32 (rb h) (rb r))
         (add32 (rc h) (rc r)) (add32 (rd h) (rd r))
         (add32 (re h) (re r)) (add32 (rf h) (rf r))
         (add32 (rg h) (rg r)) (add32 (rh h) (rh r)).

Fixpoint blocks (n : nat) (ws : list Z) (h : Regs) : Regs :=
  match n with
  | O => h
  | S n' => blocks n' (skipn 16 ws) (compress h (firstn 16 ws))
  end.

Definition regs_bytes (r : Regs) : list Z :=
  be_bytes 4 (ra r) ++ be_bytes 4 (rb r) ++ be_bytes 4 (rc r) ++
  be_bytes 4 (rd r) ++ be_bytes 4 (re r) ++ be_bytes 4 (rf r) ++
  be_bytes 4 (rg r) ++ be_bytes 4 (rh r).

Definition digest_SHA256 (data : list Z) : list Z :=
  let padded := pad data in
  let ws := words (length padded) padded in
  regs_bytes (blocks (length ws / 16) ws H0).

End SubtleCrypto.

(* ===================================================================== *)
(** ** modules/hashUtils.js *)
(* ===================================================================== *)

Module hashUtils.

(** [hashString]: the bytes of the input, their SHA-256 digest, every
    byte of it as [byte.toString(16).padStart(2, "0")], joined. *)
Definition hashString (input : string) : string :=
  let buffer := JS.TextEncoder_encode input in
  let hashBuffer := SubtleCrypto.digest_SHA256 buffer in
  let hashArray := hashBuffer in
  let hashedString :=
    JS.join_empty
      (map (fun byte => JS.padStart 2 "0" (JS.Number_toString byte 16)) hashArray) in
  hashedString.

End hashUtils.

(* ===================================================================== *)
(** ** The IndexedDB database "channelGuardDB" *)
(* ===================================================================== *)

Module IndexedDB.

(** A record of "blockedAuthors": [{ id, name }]. *)
Record Author : Type := mkAuthor { a_id : Z; a_name : string }.

(** A record of "settings": [{ id, type, value }]. *)
Record Setting : Type :=
  mkSetting { s_id : string; s_type : string; s_value : string }.

(** The store created with [{ keyPath: "id", autoIncrement: true }]: its
    records in key order, and the key the next [add] is given. *)
Record AuthorStore : Type :=
  mkAuthorStore { records : list Author; keyGenerator : Z }.

Inductive StoreName : Type := blockedAuthors | settings.

(** The database on disk.  Version 0 is a database that does not exist
    yet; an object store exists from the upgrade that creates it. *)
Record Database : Type := mkDatabase {
  version : Z;
  authorStore : option AuthorStore;
  settingStore : option (gmap string Setting)
}.

Definition absent : Database := mkDatabase 0 None None.

(** [db.objectStoreNames.contains(name)] *)
Definition contains (d : Database) (name : StoreName) : bool :=
  match name with
  | blockedAuthors => bool_decide (is_Some (authorStore d))
  | settings => bool_decide (is_Some (settingStore d))
  end.

(** [db.createObjectStore(name, ...)]: a new, empty store; the key
    generator of an auto-increment store starts at 1. *)
Definition createObjectStore (name : StoreName) (d : Database) : Database :=
  match name with
  | blockedAuthors =>
      mkDatabase (version d) (Some (mkAuthorStore [] 1)) (settingStore d)
  | settings =>
      mkDatabase (version d) (authorStore d) (Some ∅)
  end.

(** The records of the two collections, none when the store is absent. *)
Definition authorsOf (d : Database) : list Author :=
  match authorStore d with
  | Some st => records st
  | None => []
  end.

Definition settingsOf (d : Database) : gmap string Setting :=
  match settingStore d with
  | Some m => m
  | None => ∅
  end.

(** What a request does to the database once it is carried out: its
    result and the new database, or the name of the [DOMException]. *)
Definition Effect (R : Type) : Type := Database -> (R * Database) + string.

Definition hasKey (key : Z) (st : AuthorStore) : bool :=
  existsb (fun a => a_id a =? key) (records st).

(** [store.add({ name })]: the record gets the generated key as [id] and
    goes after the others; a key already in use is a [ConstraintError]. *)
Definition add (name : string) : Effect Z := fun d =>
  match authorStore d with
  | Some st =>
      let key := keyGenerator st in
      if hasKey key st then inr "ConstraintError"
      else inl (key,
                mkDatabase (version d)
                  (Some (mkAuthorStore (records st ++ [mkAuthor key name]) (key + 1)))
                  (settingStore d))
  | None => inr "InvalidStateError"
  end.

(** [store.delete(key)]: the record with that key goes, if there is one. *)
Definition delete (key : Z) : Effect unit := fun d =>
  match authorStore d with
  | Some st =>
      inl (tt,
           mkDatabase (version d)
             (Some (mkAuthorStore
                      (filter (fun a => a_id a ≠ key) (records st))
                      (keyGenerator st)))
             (settingStore d))
  | None => inr "InvalidStateError"
  end.

(** [store.getAll()] *)
Definition getAll : Effect (list Author) := fun d =>
  match authorStore d with
  | Some st => inl (records st, d)
  | None => inr "InvalidStateError"
  end.

(** [store.clear()]: every record goes; the key generator stays. *)
Definition clear : Effect unit := fun d =>
  match authorStore d with
  | Some st =>
      inl (tt,
           mkDatabase (version d)
             (Some (mkAuthorStore [] (keyGenerator st))) (settingStore d))
  | None => inr "InvalidStateError"
  end.

(** [store.put(record)] on "settings" ([keyPath: "id"]): insert or
    overwrite at the record's [id]. *)
Definition put (record : Setting) : Effect unit := fun d =>
  match settingStore d with
  | Some m =>
      inl (tt,
           mkDatabase (version d) (authorStore d) (Some (<[s_id record := record]> m)))
  | None => inr "InvalidStateError"
  end.

(** [store.get(key)] on "settings": the record, or [undefined]. *)
Definition get (key : string) : Effect (option Setting) := fun d =>
  match settingStore d with
  | Some m => inl (m !! key, d)
  | None => inr "InvalidStateError"
  end.

End IndexedDB.

Import IndexedDB.

(* ===================================================================== *)
(** ** The world of a script, and [async] computations over it *)
(* ===================================================================== *)

(** What becomes of a storage request: it succeeds, or the engine fires
    its [error] event with a [DOMException] of the given name. *)
Inductive Fate : Type := Succeeds | Fails (error : string).

(** The values a promise of these modules rejects with. *)
Inductive Err : Type :=
| ErrString (s : string)          (* a bare string *)
| ErrError (message : string)     (* [new Error(message)] *)
| DOMException (name : string).   (* [request.error], or thrown by the engine *)

(** A connection ([IDBDatabase]) is known by the order in which it was
    opened. *)
Definition Connection : Type := nat.

Record World : Type := mkWorld {
  db : option Connection;      (* the module variable [let db] *)
  disk : Database;             (* the database on disk *)
  fates : list Fate;           (* of the requests to come; none left: success *)
  connections : nat;           (* connections opened so far *)
  openCalls : nat;             (* calls of [indexedDB.open] so far *)
  alerts : list string         (* [alert(...)] boxes shown, oldest first *)
}.

Definition set_db (c : option Connection) (w : World) : World :=
  mkWorld c (disk w) (fates w) (connections w) (openCalls w) (alerts w).

Definition set_disk (d : Database) (w : World) : World :=
  mkWorld (db w) d (fates w) (connections w) (openCalls w) (alerts w).

Definition set_fates (fs : list Fate) (w : World) : World :=
  mkWorld (db w) (disk w) fs (connections w) (openCalls w) (alerts w).

(** A first run of a script on a machine without the database. *)
Definition fresh : World := mkWorld None absent [] 0 0 [].

(** How a promise ends. *)
Inductive Settled (A : Type) : Type :=
| Resolved (a : A)
| Rejected (e : Err)
| Pending.

Arguments Resolved {A} a.
Arguments Rejected {A} e.
Arguments Pending {A}.

Definition Async (A : Type) : Type := World -> Settled A * World.

Definition resolve {A} (a : A) : Async A := fun w => (Resolved a, w).
Definition reject {A} (e : Err) : Async A := fun w => (Rejected e, w).

(** [const x = await m; k]: a rejection of [m] is thrown at the [await] and
    rejects the whole [async] function; a promise that never settles
    suspends it for good. *)
Definition bind {A B} (m : Async A) (k : A -> Async B) : Async B := fun w =>
  match m w with
  | (Resolved a, w') => k a w'
  | (Rejected e, w') => (Rejected e, w')
  | (Pending, w') => (Pending, w')
  end.

Notation "'await' x ':=' m 'in' k" := (bind m (fun x => k))
  (at level 10, x name, m at level 100, k at level 200).

(** [alert(message)] *)
Definition alert (message : string) : Async unit := fun w =>
  (Resolved tt,
   mkWorld (db w) (disk w) (fates w) (connections w) (openCalls w)
           (alerts w ++ [message])).

(** The fate of the next request. *)
Definition next_fate (w : World) : Fate * World :=
  match fates w with
  | [] => (Succeeds, w)
  | f :: rest => (f, set_fates rest w)
  end.

(** The event a request ends with. *)
Inductive Event (R : Type) : Type :=
| success (result : R)
| error (e : Err).

Arguments success {R} result.
Arguments error {R} e.

(** A request placed on an object store: the engine carries it out, or
    fails it and leaves the database as it was. *)
Definition request {R} (effect : Effect R) (w : World) : Event R * World :=
  match next_fate w with
  | (Fails name, w') => (error (DOMException name), w')
  | (Succeeds, w') =>
      match effect (disk w') with
      | inl (r, d) => (success r, set_disk d w')
      | inr name => (error (DOMException name), w')
      end
  end.

(** [new Promise((resolve, reject) => { const request = ...;
    request.onsuccess = ...; request.onerror = ...; })] *)
Definition promise {R A} (effect : Effect R)
    (onsuccess : R -> Async A) (onerror : Err -> Async A) : Async A := fun w =>
  match request effect w with
  | (success r, w') => onsuccess r w'
  | (error e, w') => onerror e w'
  end.

(** [db.transaction([name], mode).objectStore(name)]: throws
    [NotFoundError] when the database has no such store. *)
Definition objectStore (c : Connection) (name : StoreName) : Async unit := fun w =>
  if contains (disk w) name then (Resolved tt, w)
  else (Rejected (DOMException "NotFoundError"), w).

(** What [indexedDB.open(name, v)] ends with: an [error] event, or a
    connection, after an [upgradeneeded] event when the stored version is
    behind. *)
Inductive Opening : Type :=
| open_error (e : Err)
| opened (c : Connection) (upgradeneeded : bool).

Definition open_settles (v : Z) (w : World) : Opening * World :=
  match next_fate w with
  | (Fails name, w') => (open_error (DOMException name), w')
  | (Succeeds, w') =>
      if v <? version (disk w') then (open_error (DOMException "VersionError"), w')
      else
        let c := connections w' in
        let upgrade := version (disk w') <? v in
        (opened c upgrade,
         mkWorld (db w')
                 (mkDatabase v (authorStore (disk w')) (settingStore (disk w')))
                 (fates w') (S c) (openCalls w') (alerts w'))
  end.

(** The call [indexedDB.open(...)] itself only places the request. *)
Definition open_called (w : World) : World :=
  mkWorld (db w) (disk w) (fates w) (connections w) (S (openCalls w)) (alerts w).

(* ===================================================================== *)
(** ** modules/indexedDBService.js *)
(* ===================================================================== *)

Module indexedDBService.

(** [hashString] is [async]: its promise resolves with the digest and
    touches nothing. *)
Definition hashString (input : string) : Async string :=
  resolve (hashUtils.hashString input).

(** [request.onupgradeneeded]: keeps the connection in [db] and creates
    each of the two stores unless it is there. *)
Definition onupgradeneeded (c : Connection) (w : World) : World :=
  let w := set_db (Some c) w in
  let w :=
    if negb (contains (disk w) blockedAuthors)
    then set_disk (createObjectStore blockedAuthors (disk w)) w else w in
  let w :=
    if negb (contains (disk w) settings)
    then set_disk (createObjectStore settings (disk w)) w else w in
  w.

(** What the promise of [openDatabase] does once the request placed by
    [indexedDB.open("channelGuardDB", 2)] ends. *)
Definition openDatabase_settles : Async Connection := fun w =>
  match open_settles 2 w with
  | (opened c upgradeneeded, w) =>
      let w := if upgradeneeded then onupgradeneeded c w else w in
      (* request.onsuccess *)
      (Resolved c, set_db (Some c) w)
  | (open_error _, w) =>
      (* request.onerror: [reject] takes its first argument only *)
      (Rejected (ErrString "IndexedDB error:"), w)
  end.

(** [openDatabase], called by one caller who awaits it at once. *)
Definition openDatabase : Async Connection := fun w =>
  match db w with
  | Some c => (Resolved c, w)
  | None => openDatabase_settles (open_called w)
  end.

(** The cursor of [authorExists]: every [success] event brings the next
    record, or [null] after the last one.  The request has no [onerror]:
    when it fails the promise is never settled. *)
Fixpoint cursor (lowercasedName : string) (rest : list Author) : Async bool :=
  fun w =>
    match next_fate w with
    | (Fails _, w') => (Pending, w')
    | (Succeeds, w') =>
        match rest with
        | a :: rest' =>
            if String.eqb (JS.toLowerCase (a_name a)) lowercasedName
            then (Resolved true, w')
            else cursor lowercasedName rest' w'
        | [] => (Resolved false, w')
        end
    end.

Definition authorExists (authorName : string) : Async bool :=
  await db := openDatabase in
  await store := objectStore db blockedAuthors in
  let lowercasedName := JS.toLowerCase authorName in
  fun w => cursor lowercasedName (authorsOf (disk w)) w.

(** Resolves with the new key, or with [undefined] ([None]) when the
    author is there already. *)
Definition addAuthor (authorName : string) : Async (option Z) :=
  await exists_ := authorExists authorName in
  if exists_ : bool then
    await shown := alert ("Author already exists: " +:+ authorName) in
    resolve None
  else
    await db := openDatabase in
    await store := objectStore db blockedAuthors in
    promise (add (JS.toLowerCase authorName))
      (fun result => resolve (Some result))
      (fun e => reject e).

Definition deleteAuthor (id : Z) : Async unit :=
  await db := openDatabase in
  await store := objectStore db blockedAuthors in
  promise (delete id)
    (fun result => resolve result)
    (fun e => reject e).

Definition getAuthors : Async (list Author) :=
  await db := openDatabase in
  await store := objectStore db blockedAuthors in
  promise getAll
    (fun result => resolve result)
    (fun e => reject e).

Definition clearAuthors : Async unit :=
  await db := openDatabase in
  await store := objectStore db blockedAuthors in
  promise clear
    (fun _ => resolve tt)
    (fun e => reject e).

Definition setPIN (pin : string) : Async unit :=
  await hashedPIN := hashString pin in
  await db := openDatabase in
  await store := objectStore db settings in
  promise (put (mkSetting "pin" "pin" hashedPIN))
    (fun _ => resolve tt)
    (fun e => reject e).

Definition verifyPIN (pin : string) : Async bool :=
  await db := openDatabase in
  await store := objectStore db settings in
  promise (get "pin")
    (fun result =>
       match result with
       | Some record =>
           let hashedPIN := s_value record in
           await inputPINHashed := hashString pin in
           resolve (String.eqb hashedPIN inputPINHashed)
       | None => resolve false
       end)
    (fun _ => resolve false).

Definition updatePIN (oldPIN newPIN : string) : Async unit :=
  await newHashedPIN := hashString newPIN in
  await isOldPINVerified := verifyPIN oldPIN in
  if negb isOldPINVerified then
    reject (ErrError "Old PIN is incorrect.")
  else
    await db := openDatabase in
    await store := objectStore db settings in
    promise (put (mkSetting "pin" "pin" newHashedPIN))
      (fun _ => resolve tt)
      (fun e => reject e).

Definition isPINSet : Async bool :=
  await db := openDatabase in
  await store := objectStore db settings in
  promise (get "pin")
    (fun result =>
       match result with
       | Some _ => resolve true
       | None => resolve false
       end)
    (fun _ => resolve false).

End indexedDBService.

(* ===================================================================== *)
(** ** The background script: its message listener *)
(* ===================================================================== *)

Module background.

(** The background script carries its own copy of [db], [openDatabase]
    and [getAuthors], the same text as in the service module. *)
Definition openDatabase : Async Connection := indexedDBService.openDatabase.

Definition getAuthors : Async (list Author) :=
  await db := openDatabase in
  await store := objectStore db blockedAuthors in
  promise getAll
    (fun result => resolve result)
    (fun e => reject e).

Record Message : Type := mkMessage { action : string }.

Record Response : Type := mkResponse { authors : list Author }.

(** What a run of the listener leaves behind: whether it returned [true]
    (the channel stays open for a later answer), and the calls of
    [sendResponse], oldest first. *)
Record Handled : Type := mkHandled { keptOpen : bool; sent : list Response }.

(** The listener given to [chrome.runtime.onMessage.addListener], with
    the promise of [getAuthors] run to its end.  The [catch] handler also
    logs the error on the console. *)
Definition onMessage (message : Message) (w : World) : Handled * World :=
  if String.eqb (action message) "fetchBlockedAuthors" then
    match getAuthors w with
    | (Resolved authors, w') => (mkHandled true [mkResponse authors], w')
    | (Rejected _, w') => (mkHandled true [mkResponse []], w')
    | (Pending, w') => (mkHandled true [], w')
    end
  else (mkHandled false [], w).

End background.

(* ===================================================================== *)
(** ** Callers that do not wait for one another *)
(* ===================================================================== *)

(** [openDatabase] runs in two turns of the event loop: the call, which
    reads [db] and places the open request, and the end of the request,
    which runs the handlers.  Between the two, other callers may run. *)
Module EventLoop.

Record Loop : Type := mkLoop {
  world : World;
  inFlight : list nat;                         (* callers whose request is placed, oldest first *)
  received : list (nat * Settled Connection)   (* what each caller's promise settled with *)
}.

Inductive Turn : Type :=
| Calls (caller : nat)     (* [caller] runs [openDatabase()] *)
| RequestEnds.             (* the oldest open request ends *)

Definition turn (l : Loop) (t : Turn) : Loop :=
  match t with
  | Calls caller =>
      match db (world l) with
      | Some c => mkLoop (world l) (inFlight l) (received l ++ [(caller, Resolved c)])
      | None => mkLoop (open_called (world l)) (inFlight l ++ [caller]) (received l)
      end
  | RequestEnds =>
      match inFlight l with
      | caller :: rest =>
          let (r, w) := indexedDBService.openDatabase_settles (world l) in
          mkLoop w rest (received l ++ [(caller, r)])
      | [] => l
      end
  end.

Definition run (turns : list Turn) (w : World) : Loop :=
  fold_left turn turns (mkLoop w [] []).

End EventLoop.

(* ===================================================================== *)
(** ** Vocabulary of the properties *)
(* ===================================================================== *)

(** No storage request to come fails. *)
Definition calm (w : World) : bool :=
  forallb (fun f => match f with Succeeds => true | Fails _ => false end) (fates w).

(** The keys of the records are positive, ascending and below [hi]. *)
Fixpoint keys_between (lo : Z) (l : list Author) (hi : Z) : bool :=
  match l with
  | [] => lo <? hi
  | a :: rest => (lo <? a_id a) && keys_between (a_id a) rest hi
  end.

(** The author store is one that [add] with generated keys has filled. *)
Definition keys_ok (d : Database) : bool :=
  match authorStore d with
  | Some st => keys_between 0 (records st) (keyGenerator st)
  | None => true
  end.

Definition has_stores (d : Database) : bool :=
  contains d blockedAuthors && contains d settings.

(** Storage is available and works: the requests to come succeed, and the
    database is either open with both stores, or can be opened at version
    2 and has both stores once it is. *)
Definition healthy (w : World) : bool :=
  calm w && keys_ok (disk w) &&
  match db w with
  | Some _ => has_stores (disk w)
  | None =>
      (version (disk w) <? 2) || ((version (disk w) =? 2) && has_stores (disk w))
  end.

(** The digest held by the "pin" record, if there is one. *)
Definition storedDigest (w : World) : option string :=
  s_value <$> (settingsOf (disk w) !! "pin").

(** The author records of the world. *)
Definition authorList (w : World) : list Author := authorsOf (disk w).

(** [w'] holds the records and shows the alerts that [w] does. *)
Definition frame (w w' : World) : Prop :=
  authorList w' = authorList w
  /\ settingsOf (disk w') = settingsOf (disk w)
  /\ alerts w' = alerts w.

(** Two names are the same author when their lower cases are equal. *)
Definition sameAuthor (name : string) (a : Author) : Prop :=
  JS.toLowerCase (a_name a) = JS.toLowerCase name.

(** Some record of the list is the author of that name. *)
Definition known (name : string) (l : list Author) : bool :=
  existsb
    (fun a => String.eqb (JS.toLowerCase (a_name a)) (JS.toLowerCase name)) l.

(** No two records have the same lowercase name. *)
Definition unique_names (l : list Author) : Prop :=
  NoDup (map (fun a => JS.toLowerCase (a_name a)) l).

(** Every record holds its name in lower case. *)
Definition lowercased (l : list Author) : Prop :=
  Forall (fun a => JS.toLowerCase (a_name a) = a_name a) l.

(** The calls a user of the service module can make. *)
Inductive Call : Type :=
| AddAuthor (name : string)
| DeleteAuthor (id : Z)
| ClearAuthors
| GetAuthors
| SetPIN (pin : string)
| VerifyPIN (pin : string)
| UpdatePIN (oldPIN newPIN : string)
| IsPINSet.

(** The world a call leaves, however its promise settles. *)
Definition after (w : World) (c : Call) : World :=
  match c with
  | AddAuthor name => snd (indexedDBService.addAuthor name w)
  | DeleteAuthor id => snd (indexedDBService.deleteAuthor id w)
  | ClearAuthors => snd (indexedDBService.clearAuthors w)
  | GetAuthors => snd (indexedDBService.getAuthors w)
  | SetPIN pin => snd (indexedDBService.setPIN pin w)
  | VerifyPIN pin => snd (indexedDBService.verifyPIN pin w)
  | UpdatePIN oldPIN newPIN => snd (indexedDBService.updatePIN oldPIN newPIN w)
  | IsPINSet => snd (indexedDBService.isPINSet w)
  end.

(** Calls made one after the other. *)
Definition after_all (calls : list Call) (w : World) : World :=
  fold_left after calls w.

Definition isSetPIN (c : Call) : bool :=
  match c with SetPIN _ => true | _ => false end.

(** The specification's rendering of a digest: two lowercase hexadecimal
    characters for every byte, the high half first. *)
Definition hexDigit (n : Z) : ascii :=
  nth (Z.to_nat n) (list_ascii_of_string "0123456789abcdef") "0"%char.

Definition hexByte (b : Z) : string :=
  String (hexDigit (b / 16)) (String (hexDigit (b mod 16)) "").

Definition lowercaseHex (bytes : list Z) : string :=
  fold_right (fun b s => hexByte b +:+ s) "" bytes.

Definition isLowercaseHexChar (c : ascii) : bool :=
  existsb (Ascii.eqb c) (list_ascii_of_string "0123456789abcdef").

(** The shape of [deleteAuthor], [getAuthors], [clearAuthors] and of the
    end of [addAuthor] and [setPIN]: open, take the store, place one
    request, resolve with its result or reject with its error. *)
Definition storeCall {R A} (name : StoreName) (effect : Effect R) (g : R -> A)
    : Async A :=
  await db := indexedDBService.openDatabase in
  await store := objectStore db name in
  promise effect (fun result => resolve (g result)) (fun e => reject e).

(** A world with the PIN 123456 set on a new machine. *)
Definition pinned : World := snd (indexedDBService.setPIN "123456" fresh).

(** A world in which the database cannot be opened. *)
Definition unavailable : World := set_fates [Fails "UnknownError"] fresh.

(** A world in which the database opens and the request after that fails. *)
Definition flaky : World := set_fates [Succeeds; Fails "UnknownError"] fresh.


(* ===================================================================== *)
(** ** modules/buttonLogic.js *)
(* ===================================================================== *)

Module buttonLogic.

(** [deleteBtnFnc(data, deleteFnc, callBackFnc)]: the callback is called
    once the deletion has resolved, and not at all when it rejects or
    stays pending.  The promise the callback returns is not awaited:
    [deleteBtnFnc] resolves as soon as the callback has been called, and
    how the callback goes on to settle is kept in the result, so that its
    outcome can be read. *)
Definition deleteBtnFnc {D B} (data : D) (deleteFnc : D -> Async unit)
    (callBackFnc : Async B) : Async (Settled B) :=
  await deleted := deleteFnc data in
  fun w => (Resolved (fst (callBackFnc w)), snd (callBackFnc w)).

End buttonLogic.

(* ===================================================================== *)
(** ** modules/views.js: the handlers of the views *)
(* ===================================================================== *)

(** A handler is given the values of the inputs it reads when it starts.
    A handler that ends by calling [changeState(s)] resolves with
    [Some s], one that ends without with [None]. *)
Module views.

(** [/^\d{6}$/.test(s)]: exactly six characters, each of 0-9. *)
Definition isDigit (c : ascii) : bool :=
  (48 <=? JS.charCode c) && (JS.charCode c <=? 57).

Definition sixDigits (s : string) : bool :=
  (String.length s =? 6)%nat && forallb isDigit (list_ascii_of_string s).

Definition submitPIN (pin : string) : Async (option string) :=
  await isPINValid := indexedDBService.verifyPIN pin in
  if isPINValid : bool then resolve (Some "app")
  else
    await shown := alert "Invalid PIN!" in
    resolve None.

(** [loginView]: the click on "Log In", with the value of [pinInput]. *)
Definition handleLogin (pin : string) : Async (option string) :=
  submitPIN pin.

(** [setPINView]: the click on "Save PIN". *)
Definition handlePINConfirmation (pinValue confirmPinValue : string)
    : Async (option string) :=
  if sixDigits pinValue && String.eqb pinValue confirmPinValue then
    await saved := indexedDBService.setPIN pinValue in
    await shown := alert "Pin added successfully!" in
    resolve (Some "login")
  else
    await shown := alert "PINs do not match or do not meet the required format." in
    resolve None.

(** What a validation leaves on the page: whether the inputs carry the
    class "error", and whether the save button is disabled. *)
Record Validation : Type := mkValidation { errorClass : bool; disabled : bool }.

(** [setPINView]: [validatePIN], run on every input. *)
Definition validatePIN (pinValue confirmPinValue : string) : Validation :=
  let isValid := sixDigits pinValue && String.eqb pinValue confirmPinValue in
  mkValidation (negb isValid) (negb isValid).


(** [changePINView]: the click on "Save PIN". *)
Definition handleChangePIN (currentPinValue pinValue : string)
    : Async (option string) :=
  await isCurrentPINValid := indexedDBService.verifyPIN currentPinValue in
  if negb isCurrentPINValid then
    await shown := alert "Invalid current PIN!" in
    resolve None
  else
    await saved := indexedDBService.setPIN pinValue in
    await shown := alert "PIN changed successfully!" in
    resolve (Some "login").

(** What [refreshAuthorsList] leaves in the list it has emptied: an item
    and a delete button for every author, or nothing and the error on the
    console. *)
Inductive Refreshed : Type :=
| listed (items : list Author)
| logged (e : Err).

Definition refreshAuthorsList : Async Refreshed := fun w =>
  match indexedDBService.getAuthors w with
  | (Resolved authors, w') => (Resolved (listed authors), w')
  | (Rejected e, w') => (Resolved (logged e), w')
  | (Pending, w') => (Pending, w')
  end.

(** How [handleSaveAuthor] ends: without doing anything for an empty
    name; after [console.log("Author saved:", name)], with the input
    emptied and [refreshAuthorsList()] called, whose promise it does not
    await; or in its [catch], with the error on the console. *)
Inductive Saved : Type :=
| ignored
| saved (list : Settled Refreshed)
| failed (e : Err).

Definition handleSaveAuthor (authorName : string) : Async Saved :=
  match authorName with
  | EmptyString => resolve ignored
  | _ => fun w =>
      match indexedDBService.addAuthor authorName w with
      | (Resolved _, w') =>
          (Resolved (saved (fst (refreshAuthorsList w'))),
           snd (refreshAuthorsList w'))
      | (Rejected e, w') => (Resolved (failed e), w')
      | (Pending, w') => (Pending, w')
      end
  end.

(** The delete button of the item of [author]. *)
Definition deleteButton (author : Author) : Async (Settled Refreshed) :=
  buttonLogic.deleteBtnFnc (a_id author) indexedDBService.deleteAuthor
    refreshAuthorsList.

End views.

(* ===================================================================== *)
(** ** The popup script *)
(* ===================================================================== *)

Module popup.

(** The state the popup starts in, once the document is loaded. *)
Definition initialState : Async string :=
  await pinSet := indexedDBService.isPINSet in
  resolve (if pinSet : bool then "login" else "setPIN").

End popup.

(* ===================================================================== *)
(** ** Vocabulary of the further properties *)
(* ===================================================================== *)

(** The calls that write to "blockedAuthors", and those that write to
    "settings". *)
Definition writesAuthors (c : Call) : bool :=
  match c with
  | AddAuthor _ | DeleteAuthor _ | ClearAuthors => true
  | _ => false
  end.

Definition writesSettings (c : Call) : bool :=
  match c with
  | SetPIN _ | UpdatePIN _ _ => true
  | _ => false
  end.

(** The PINs the calls are given to store. *)
Definition pinsGiven (calls : list Call) : list string :=
  flat_map
    (fun c =>
       match c with
       | SetPIN pin => [pin]
       | UpdatePIN _ newPIN => [newPIN]
       | _ => []
       end) calls.

(** No connection has been opened and [db] is empty, or one has and [db]
    holds it. *)
Definition oneHandle (w : World) : Prop :=
  (db w = None /\ connections w = 0%nat)
  \/ (db w = Some 0%nat /\ connections w = 1%nat).

(** A computation keeps [P] when the world it leaves has [P] if the world
    it started in had. *)
Definition keeps (P : World -> Prop) {A} (m : Async A) : Prop :=
  forall w, P w -> P (snd (m w)).

(** The settings hold nothing, or one record, at "pin", with the digest of
    one of [pins]. *)
Definition holdsDigestOf (pins : list string) (m : gmap string Setting) : Prop :=
  m = ∅
  \/ exists pin,
      pin ∈ pins
      /\ m = {["pin" := mkSetting "pin" "pin" (hashUtils.hashString pin)]}.

(** Reading a digest back: the value of a hexadecimal character, and the
    bytes of a string of them, two characters a byte. *)
Definition hexValue (c : ascii) : Z :=
  let u := JS.charCode c in
  if u <? 58 then u - 48 else u - 87.

Fixpoint parseHex (s : string) : list Z :=
  match s with
  | String hi (String lo rest) => (16 * hexValue hi + hexValue lo) :: parseHex rest
  | _ => []
  end.

(** The world with the PIN 123456 set, where the next request fails. *)
Definition unreadable : World := set_fates [Fails "UnknownError"] pinned.
(* ===================================================================== *)
(** * Properties *)
(* ===================================================================== *)

(** ** The built-ins and the digest *)

Section Strings.

Lemma append_nil (t : string) : "" +:+ t = t.
Proof. reflexivity. Qed.

Lemma append_cons (c : ascii) (s t : string) :
  String c s +:+ t = String c (s +:+ t).
Proof. reflexivity. Qed.

Lemma append_length (s t : string) :
  String.length (s +:+ t) = (String.length s + String.length t)%nat.
Proof.
  induction s as [|c s IH]; [reflexivity|].
  rewrite append_cons. simpl. now rewrite IH.
Qed.

Lemma lowerChar_idempotent (c : ascii) :
  JS.lowerChar (JS.lowerChar c) = JS.lowerChar c.
Proof.
  destruct c as [[] [] [] [] [] [] [] []]; vm_compute; reflexivity.
Qed.

Lemma toLowerCase_idempotent (s : string) :
  JS.toLowerCase (JS.toLowerCase s) = JS.toLowerCase s.
Proof.
  induction s as [|c s IH]; simpl; [reflexivity|].
  now rewrite lowerChar_idempotent, IH.
Qed.

Lemma String_eqb_decide (s t : string) : String.eqb s t = bool_decide (s = t).
Proof.
  destruct (String.eqb_spec s t) as [E|E].
  - now rewrite bool_decide_eq_true_2.
  - now rewrite bool_decide_eq_false_2.
Qed.

End Strings.

Section Digest.

Import SubtleCrypto.

Lemma land_255_range (x : Z) : 0 <= Z.land x 255 < 256.
Proof.
  change 255 with (Z.ones 8). rewrite Z.land_ones by lia.
  apply Z.mod_pos_bound. lia.
Qed.

Lemma be_bytes_length (n : nat) (x : Z) : length (be_bytes n x) = n.
Proof. unfold be_bytes. now rewrite length_map, length_rev, length_seq. Qed.

Lemma be_bytes_range (n : nat) (x : Z) :
  Forall (fun b => 0 <= b < 256) (be_bytes n x).
Proof.
  unfold be_bytes. apply Forall_forall. intros b Hb.
  apply list_elem_of_In, in_map_iff in Hb. destruct Hb as (i & <- & _).
  apply land_255_range.
Qed.

Lemma digest_length (data : list Z) : length (digest_SHA256 data) = 32%nat.
Proof.
  unfold digest_SHA256, regs_bytes.
  rewrite !length_app, !be_bytes_length. reflexivity.
Qed.

Lemma digest_range (data : list Z) :
  Forall (fun b => 0 <= b < 256) (digest_SHA256 data).
Proof.
  unfold digest_SHA256, regs_bytes.
  repeat (apply Forall_app; split); apply be_bytes_range.
Qed.

End Digest.

Section Hex.

(** [byte.toString(16).padStart(2, "0")] writes a byte as the
    specification's two characters; checked on each of the 256 bytes. *)
Lemma byte_rendering_table :
  forallb
    (fun n => String.eqb (JS.padStart 2 "0" (JS.Number_toString (Z.of_nat n) 16))
                         (hexByte (Z.of_nat n)))
    (seq 0 256) = true.
Proof. vm_compute. reflexivity. Qed.

Lemma byte_rendering (b : Z) :
  0 <= b < 256 ->
  JS.padStart 2 "0" (JS.Number_toString b 16) = hexByte b.
Proof.
  intros Hb. pose proof byte_rendering_table as T.
  rewrite forallb_forall in T.
  specialize (T (Z.to_nat b)). rewrite Z2Nat.id in T by lia.
  apply String.eqb_eq, T, in_seq. lia.
Qed.

Lemma hexDigit_table :
  forallb (fun n => isLowercaseHexChar (hexDigit (Z.of_nat n))) (seq 0 16) = true.
Proof. vm_compute. reflexivity. Qed.

Lemma hexDigit_lowercase (n : Z) :
  0 <= n < 16 -> isLowercaseHexChar (hexDigit n) = true.
Proof.
  intros Hn. pose proof hexDigit_table as T.
  rewrite forallb_forall in T.
  specialize (T (Z.to_nat n)). rewrite Z2Nat.id in T by lia.
  apply T, in_seq. lia.
Qed.

Lemma join_rendering (bytes : list Z) :
  Forall (fun b => 0 <= b < 256) bytes ->
  JS.join_empty
    (map (fun byte => JS.padStart 2 "0" (JS.Number_toString byte 16)) bytes)
  = lowercaseHex bytes.
Proof.
  induction 1 as [|b bytes Hb _ IH]; simpl; [reflexivity|].
  now rewrite byte_rendering, IH.
Qed.

Lemma lowercaseHex_length (bytes : list Z) :
  String.length (lowercaseHex bytes) = (2 * length bytes)%nat.
Proof.
  induction bytes as [|b bytes IH]; [reflexivity|].
  change (lowercaseHex (b :: bytes)) with (hexByte b +:+ lowercaseHex bytes).
  rewrite append_length, IH. simpl. lia.
Qed.

Lemma lowercaseHex_chars (bytes : list Z) :
  Forall (fun b => 0 <= b < 256) bytes ->
  forallb isLowercaseHexChar (list_ascii_of_string (lowercaseHex bytes)) = true.
Proof.
  induction 1 as [|b bytes Hb _ IH]; [reflexivity|].
  change (lowercaseHex (b :: bytes)) with (hexByte b +:+ lowercaseHex bytes).
  unfold hexByte. rewrite !append_cons, append_nil.
  cbn [list_ascii_of_string forallb].
  rewrite IH, !hexDigit_lowercase; [reflexivity| |].
  - apply Z.mod_pos_bound. lia.
  - split; [apply Z.div_pos; lia | apply Z.div_lt_upper_bound; lia].
Qed.

End Hex.

(** C6. For every input string, [hashString] is a function of the input
    alone that touches nothing: its promise resolves with the SHA-256 digest
    of the UTF-8 bytes of the string written in lowercase hexadecimal, two
    characters for every byte, zero-padded, 64 characters in all. *)
Theorem hashString_is_lowercase_hex_sha256 (input : string) :
  (forall w : World,
      indexedDBService.hashString input w
      = (Resolved (hashUtils.hashString input), w))
  /\ hashUtils.hashString input
     = lowercaseHex (SubtleCrypto.digest_SHA256 (JS.TextEncoder_encode input))
  /\ String.length (hashUtils.hashString input) = 64%nat
  /\ forallb isLowercaseHexChar
       (list_ascii_of_string (hashUtils.hashString input)) = true.
Proof.
  assert (E : hashUtils.hashString input
              = lowercaseHex (SubtleCrypto.digest_SHA256 (JS.TextEncoder_encode input))).
  { unfold hashUtils.hashString. apply join_rendering, digest_range. }
  split; [reflexivity|]. split; [exact E|]. rewrite E. split.
  - now rewrite lowercaseHex_length, digest_length.
  - apply lowercaseHex_chars, digest_range.
Qed.

(** The digests of known inputs: one block, two blocks, and a character
    beyond ASCII (U+00E9, two bytes in UTF-8). *)
Example hash_abc :
  hashUtils.hashString "abc"
  = "ba7816bf8f01cfea414140de5dae2223b00361a396177a9cb410ff61f20015ad".
Proof. vm_compute. reflexivity. Qed.

Example hash_empty :
  hashUtils.hashString ""
  = "e3b0c44298fc1c149afbf4c8996fb92427ae41e4649b934ca495991b7852b855".
Proof. vm_compute. reflexivity. Qed.

Example hash_123456 :
  hashUtils.hashString "123456"
  = "8d969eef6ecad3c29a3a629280e686cf0c3f5d5a86aff3ca12020c923adc6c92".
Proof. vm_compute. reflexivity. Qed.

Example hash_two_blocks :
  hashUtils.hashString (JS.repeatString 100 "a")
  = "2816597888e4a0d3a36b82b83316ab32680eb8f00f8cd3b904d681246d285a0e".
Proof. vm_compute. reflexivity. Qed.

Example hash_e_acute :
  hashUtils.hashString (String "233"%char "")
  = "4a99557e4033c3539de2eb65472017cad5f9557f7a0625a09f1c3f6e2ba69c4c".
Proof. vm_compute. reflexivity. Qed.

(** ** Storage requests *)

Section Requests.

Import indexedDBService.

Lemma frame_refl (w : World) : frame w w.
Proof. repeat split. Qed.

Lemma frame_trans (w1 w2 w3 : World) : frame w1 w2 -> frame w2 w3 -> frame w1 w3.
Proof.
  intros (A1 & S1 & L1) (A2 & S2 & L2).
  repeat split; [now rewrite A2 | now rewrite S2 | now rewrite L2].
Qed.

Lemma frame_set_fates (fs : list Fate) (w : World) : frame w (set_fates fs w).
Proof. repeat split. Qed.

Lemma next_fate_any (w : World) :
  exists fs, snd (next_fate w) = set_fates fs w.
Proof.
  destruct w as [dbv d fs conns oc al]. unfold next_fate. simpl.
  destruct fs as [|f fs]; [exists [] | exists fs]; reflexivity.
Qed.

Lemma next_fate_calm (w : World) :
  calm w = true ->
  exists fs, next_fate w = (Succeeds, set_fates fs w)
             /\ calm (set_fates fs w) = true.
Proof.
  destruct w as [dbv d fs conns oc al]. unfold calm, next_fate. simpl.
  destruct fs as [|[|name] fs]; simpl; intros H; try discriminate.
  - exists []. split; reflexivity.
  - exists fs. split; [reflexivity | exact H].
Qed.

(** A request ends in an [error] event and leaves the database alone, or
    in a [success] event after its effect. *)
Lemma promise_cases {R A} (effect : Effect R)
    (onsuccess : R -> Async A) (onerror : Err -> Async A) (w : World) :
  exists fs,
    (exists name,
        promise effect onsuccess onerror w
        = onerror (DOMException name) (set_fates fs w))
    \/ (exists r d,
           effect (disk w) = inl (r, d)
           /\ promise effect onsuccess onerror w
              = onsuccess r (set_disk d (set_fates fs w))).
Proof.
  unfold promise, request.
  destruct (next_fate_any w) as [fs E].
  destruct (next_fate w) as [[|name] w'] eqn:En; simpl in E; subst w'; exists fs.
  - simpl. destruct (effect (disk w)) as [[r d]|name] eqn:Ee.
    + right. now exists r, d.
    + left. now exists name.
  - left. now exists name.
Qed.

Lemma promise_calm {R A} (effect : Effect R)
    (onsuccess : R -> Async A) (onerror : Err -> Async A) (w : World) :
  calm w = true ->
  exists fs,
    calm (set_fates fs w) = true
    /\ promise effect onsuccess onerror w
       = match effect (disk w) with
         | inl (r, d) => onsuccess r (set_disk d (set_fates fs w))
         | inr name => onerror (DOMException name) (set_fates fs w)
         end.
Proof.
  intros Hc. destruct (next_fate_calm w Hc) as (fs & En & Hfs).
  exists fs. split; [exact Hfs|].
  unfold promise, request. rewrite En. simpl.
  destruct (effect (disk w)) as [[r d]|name]; reflexivity.
Qed.

(** Opening the database changes no record and shows no alert. *)
Lemma openDatabase_frame (w : World) :
  frame w (snd (openDatabase w)).
Proof.
  unfold openDatabase. destruct (db w); [apply frame_refl|].
  unfold openDatabase_settles, open_settles.
  destruct (next_fate_any (open_called w)) as [fs E].
  destruct (next_fate (open_called w)) as [[|name] w'] eqn:En;
    simpl in E; subst w'; [|repeat split].
  destruct w as [dbv [ver ast sst] fs0 conns oc al]. simpl.
  destruct (2 <? ver); [repeat split|]. simpl.
  destruct (ver <? 2); [|repeat split].
  unfold onupgradeneeded, frame, authorList, contains. simpl.
  destruct ast, sst; simpl; repeat split.
Qed.

(** An open database is handed out as it is. *)
Lemma openDatabase_memo (c : Connection) (w : World) :
  db w = Some c -> openDatabase w = (Resolved c, w).
Proof. intros E. unfold openDatabase. now rewrite E. Qed.

(** A promise of [openDatabase] that resolves leaves the connection in
    [db]. *)
Lemma openDatabase_resolved (c : Connection) (w w1 : World) :
  openDatabase w = (Resolved c, w1) -> db w1 = Some c.
Proof.
  unfold openDatabase. destruct (db w) as [c0|] eqn:Edb.
  - intros E. injection E as <- <-. exact Edb.
  - unfold openDatabase_settles.
    destruct (open_settles 2 (open_called w)) as [[e|c0 up] w']; [discriminate|].
    intros E. injection E as <- <-. reflexivity.
Qed.

(** [openDatabase] settles: its promise is never left pending. *)
Lemma openDatabase_settled (w : World) : fst (openDatabase w) <> Pending.
Proof.
  unfold openDatabase. destruct (db w); [discriminate|].
  unfold openDatabase_settles.
  destruct (open_settles 2 (open_called w)) as [[e|c0 up] w']; discriminate.
Qed.

Lemma openDatabase_healthy (w : World) :
  healthy w = true ->
  exists c w1,
    openDatabase w = (Resolved c, w1)
    /\ db w1 = Some c
    /\ healthy w1 = true
    /\ frame w w1.
Proof.
  intros H. unfold healthy in H.
  apply andb_true_iff in H as [H Hst]. apply andb_true_iff in H as [Hc Hk].
  unfold openDatabase. destruct (db w) as [c|] eqn:Edb.
  - exists c, w. repeat split; try assumption.
    unfold healthy. now rewrite Hc, Hk, Edb.
  - unfold openDatabase_settles, open_settles.
    destruct (next_fate_calm (open_called w)) as (fs & -> & Hfs); [exact Hc|].
    destruct w as [dbv [ver ast sst] fs0 conns oc al].
    unfold healthy, calm, keys_ok, has_stores, contains, frame, authorList in *.
    simpl in *.
    destruct (Z.ltb_spec ver 2) as [Hlt|Hge].
    + replace (2 <? ver) with false by (symmetry; apply Z.ltb_ge; lia).
      destruct ast as [st|], sst as [m|]; simpl;
        eexists _, _; (split; [reflexivity|]); simpl;
        rewrite ?Hfs, ?Hk; repeat split; reflexivity.
    + simpl in Hst. apply andb_true_iff in Hst as [Hv Hs].
      apply Z.eqb_eq in Hv. subst ver. simpl.
      eexists _, _; (split; [reflexivity|]); simpl.
      rewrite Hfs, Hk, Hs. repeat split; reflexivity.
Qed.

(** In a healthy world with the database open both stores are there. *)
Lemma healthy_open_stores (c : Connection) (w : World) :
  healthy w = true -> db w = Some c ->
  calm w = true
  /\ (exists st, authorStore (disk w) = Some st
                 /\ keys_between 0 (records st) (keyGenerator st) = true)
  /\ (exists m, settingStore (disk w) = Some m).
Proof.
  unfold healthy, keys_ok, has_stores, contains. intros H Edb. rewrite Edb in H.
  apply andb_true_iff in H as [H Hst]. apply andb_true_iff in H as [Hc Hk].
  apply andb_true_iff in Hst as [Ha Hs].
  apply bool_decide_eq_true in Ha as [st Ea], Hs as [m Es].
  rewrite Ea in Hk. eauto 8.
Qed.

Lemma objectStore_healthy (c c' : Connection) (name : StoreName) (w : World) :
  healthy w = true -> db w = Some c ->
  objectStore c' name w = (Resolved tt, w).
Proof.
  intros H Edb. destruct (healthy_open_stores c w H Edb) as (_ & (st & Ea & _) & (m & Es)).
  unfold objectStore, contains. rewrite Ea, Es.
  destruct name; reflexivity.
Qed.

End Requests.

(** The promise built on the request at hand: with the requests to come
    succeeding, and in general. *)
Ltac on_promise_calm Hc fs Hfs :=
  match goal with
  | |- context [promise ?e ?s ?f ?w] =>
      destruct (promise_calm e s f w Hc) as (fs & Hfs & ->)
  end.

Ltac on_promise fs name r d Ee :=
  match goal with
  | |- context [promise ?e ?s ?f ?w] =>
      destruct (promise_cases e s f w) as (fs & [(name & ->)|(r & d & Ee & ->)])
  end.

(** ** The PIN *)

Section PIN.

Import indexedDBService.

(** Serving a request that leaves the stores in place keeps the world
    healthy. *)
Lemma healthy_served (c : Connection) (fs : list Fate) (d : Database) (w : World) :
  healthy w = true -> db w = Some c ->
  calm (set_fates fs w) = true ->
  keys_ok d = true -> has_stores d = true ->
  healthy (set_disk d (set_fates fs w)) = true.
Proof.
  intros H Edb Hc Hk Hs. unfold healthy in *.
  destruct w as [dbv d0 fs0 conns oc al]. simpl in *. subst dbv.
  unfold calm in *. simpl in *. now rewrite Hc, Hk, Hs.
Qed.

Lemma healthy_has_stores (c : Connection) (w : World) :
  healthy w = true -> db w = Some c ->
  keys_ok (disk w) = true /\ has_stores (disk w) = true.
Proof.
  unfold healthy. intros H Edb. rewrite Edb in H.
  apply andb_true_iff in H as [H Hs]. apply andb_true_iff in H as [_ Hk]. auto.
Qed.

Lemma set_disk_same (fs : list Fate) (w : World) :
  set_disk (disk w) (set_fates fs w) = set_fates fs w.
Proof. reflexivity. Qed.

(** With storage at work [verifyPIN] resolves, and with [true] exactly
    when the digests agree. *)
Lemma verifyPIN_healthy (pin : string) (w : World) :
  healthy w = true ->
  exists c w',
    verifyPIN pin w
    = (Resolved (bool_decide (storedDigest w = Some (hashUtils.hashString pin))), w')
    /\ db w' = Some c /\ healthy w' = true /\ frame w w'.
Proof.
  intros H. destruct (openDatabase_healthy w H) as (c & w1 & Eo & Edb & H1 & F).
  destruct (healthy_open_stores c w1 H1 Edb) as (Hc & _ & (m & Es)).
  destruct (healthy_has_stores c w1 H1 Edb) as [Hk Hs].
  unfold verifyPIN, bind. rewrite Eo, (objectStore_healthy c c settings w1 H1 Edb).
  on_promise_calm Hc fs Hfs.
  unfold get. rewrite Es, set_disk_same.
  exists c, (set_fates fs w1).
  assert (Ed : storedDigest w = s_value <$> (m !! "pin")).
  { unfold storedDigest. destruct F as (_ & <- & _).
    unfold settingsOf. now rewrite Es. }
  rewrite Ed. split; [|split; [exact Edb|split]].
  - destruct (m !! "pin") as [record|]; simpl.
    + unfold bind, hashString, resolve. rewrite String_eqb_decide.
      f_equal. f_equal. apply bool_decide_ext. split; congruence.
    + reflexivity.
  - rewrite <- set_disk_same. now apply (healthy_served c).
  - eapply frame_trans; [exact F | apply frame_set_fates].
Qed.

(** Whatever storage does, [verifyPIN] settles and writes nothing; it
    resolves with [true] only when the digests agree, and rejects only
    with the rejection of [openDatabase] or for want of the store. *)
Lemma verifyPIN_any (pin : string) (w : World) :
  frame w (snd (verifyPIN pin w))
  /\ match fst (verifyPIN pin w) with
     | Resolved b =>
         b = true -> storedDigest w = Some (hashUtils.hashString pin)
     | Rejected e =>
         fst (openDatabase w) = Rejected e
         \/ (e = DOMException "NotFoundError"
             /\ contains (disk (snd (openDatabase w))) settings = false)
     | Pending => False
     end.
Proof.
  pose proof (openDatabase_frame w) as F.
  pose proof (openDatabase_settled w) as NP.
  unfold verifyPIN, bind.
  destruct (openDatabase w) as [[c|e|] w1] eqn:Eo; simpl in *;
    [|split; [exact F | now left]|contradiction].
  unfold objectStore. destruct (contains (disk w1) settings) eqn:Ec; simpl;
    [|split; [exact F | right; auto]].
  on_promise fs name r d Ee.
  - simpl. split; [eapply frame_trans; [exact F | apply frame_set_fates]|].
    discriminate.
  - unfold get in Ee. destruct (settingStore (disk w1)) as [m|] eqn:Es; [|discriminate].
    injection Ee as <- <-. rewrite set_disk_same.
    assert (Ed : storedDigest w = s_value <$> (m !! "pin")).
    { unfold storedDigest. destruct F as (_ & <- & _).
      unfold settingsOf. now rewrite Es. }
    destruct (m !! "pin") as [record|]; simpl.
    + split; [eapply frame_trans; [exact F | apply frame_set_fates]|].
      intros E. apply String.eqb_eq in E. rewrite Ed. simpl. now f_equal.
    + split; [eapply frame_trans; [exact F | apply frame_set_fates]|].
      discriminate.
Qed.

End PIN.

Section PINWrites.

Import indexedDBService.

(** The record [setPIN] and [updatePIN] write. *)
Lemma put_effect (record : Setting) (d d' : Database) :
  put record d = inl (tt, d') ->
  authorsOf d' = authorsOf d
  /\ settingsOf d' = <[s_id record := record]> (settingsOf d)
  /\ keys_ok d' = keys_ok d
  /\ (contains d blockedAuthors = true -> has_stores d' = true).
Proof.
  unfold put. destruct (settingStore d) as [m|] eqn:Es; [|discriminate].
  intros E. injection E as <-.
  unfold authorsOf, settingsOf, keys_ok, has_stores, contains. simpl. rewrite Es.
  repeat split. intros ->. reflexivity.
Qed.

Lemma setPIN_healthy (pin : string) (w : World) :
  healthy w = true ->
  exists c w',
    setPIN pin w = (Resolved tt, w')
    /\ db w' = Some c /\ healthy w' = true
    /\ authorList w' = authorList w
    /\ alerts w' = alerts w
    /\ settingsOf (disk w')
       = <["pin" := mkSetting "pin" "pin" (hashUtils.hashString pin)]>
           (settingsOf (disk w)).
Proof.
  intros H. destruct (openDatabase_healthy w H) as (c & w1 & Eo & Edb & H1 & F).
  destruct (healthy_open_stores c w1 H1 Edb) as (Hc & (st & Ea & _) & (m & Es)).
  destruct (healthy_has_stores c w1 H1 Edb) as [Hk Hs].
  unfold setPIN, bind, hashString, resolve.
  rewrite Eo, (objectStore_healthy c c settings w1 H1 Edb).
  on_promise_calm Hc fs Hfs.
  destruct (put (mkSetting "pin" "pin" (hashUtils.hashString pin)) (disk w1))
    as [[[] d]|name] eqn:Ep; [|unfold put in Ep; rewrite Es in Ep; discriminate].
  destruct (put_effect _ _ _ Ep) as (Pa & Ps & Pk & Ph).
  destruct F as (Fa & Fs & Fl).
  exists c, (set_disk d (set_fates fs w1)). split; [reflexivity|].
  split; [exact Edb|]. split; [|split; [|split]].
  - apply (healthy_served c); try assumption; [congruence|].
    apply Ph. unfold contains. rewrite Ea. reflexivity.
  - unfold authorList in *. simpl. congruence.
  - simpl. exact Fl.
  - simpl. rewrite Ps, Fs. reflexivity.
Qed.

(** Whatever storage does, [setPIN] settles, touches no author and shows
    no alert; the "pin" record is written when it resolves and is left as
    it was otherwise. *)
Lemma setPIN_any (pin : string) (w : World) :
  authorList (snd (setPIN pin w)) = authorList w
  /\ alerts (snd (setPIN pin w)) = alerts w
  /\ match fst (setPIN pin w) with
     | Resolved _ =>
         settingsOf (disk (snd (setPIN pin w)))
         = <["pin" := mkSetting "pin" "pin" (hashUtils.hashString pin)]>
             (settingsOf (disk w))
     | Rejected _ => settingsOf (disk (snd (setPIN pin w))) = settingsOf (disk w)
     | Pending => False
     end.
Proof.
  pose proof (openDatabase_frame w) as (Fa & Fs & Fl).
  pose proof (openDatabase_settled w) as NP.
  unfold setPIN, bind, hashString, resolve.
  destruct (openDatabase w) as [[c|e|] w1] eqn:Eo; simpl in *;
    [|auto|contradiction].
  unfold objectStore. destruct (contains (disk w1) settings) eqn:Ec; simpl; [|auto].
  on_promise fs name r d Ee.
  - simpl. auto.
  - destruct r. destruct (put_effect _ _ _ Ee) as (Pa & Ps & _).
    unfold authorList in *. simpl. rewrite Pa, Ps, Fa, Fs. auto.
Qed.

(** After its re-authentication [updatePIN] is [setPIN]. *)
Lemma updatePIN_unfold (oldPIN newPIN : string) (w : World) :
  updatePIN oldPIN newPIN w
  = match verifyPIN oldPIN w with
    | (Resolved true, w1) => setPIN newPIN w1
    | (Resolved false, w1) => (Rejected (ErrError "Old PIN is incorrect."), w1)
    | (Rejected e, w1) => (Rejected e, w1)
    | (Pending, w1) => (Pending, w1)
    end.
Proof.
  unfold updatePIN, setPIN, bind, hashString, resolve, reject.
  destruct (verifyPIN oldPIN w) as [[[]|e|] w1]; reflexivity.
Qed.

Lemma isPINSet_healthy (w : World) :
  healthy w = true ->
  exists w',
    isPINSet w
    = (Resolved (bool_decide (is_Some (settingsOf (disk w) !! "pin"))), w')
    /\ healthy w' = true /\ frame w w'.
Proof.
  intros H. destruct (openDatabase_healthy w H) as (c & w1 & Eo & Edb & H1 & F).
  destruct (healthy_open_stores c w1 H1 Edb) as (Hc & _ & (m & Es)).
  destruct (healthy_has_stores c w1 H1 Edb) as [Hk Hs].
  unfold isPINSet, bind. rewrite Eo, (objectStore_healthy c c settings w1 H1 Edb).
  on_promise_calm Hc fs Hfs.
  unfold get. rewrite Es, set_disk_same.
  exists (set_fates fs w1).
  assert (Ed : settingsOf (disk w) = m).
  { destruct F as (_ & <- & _). unfold settingsOf. now rewrite Es. }
  rewrite Ed. split; [|split].
  - destruct (m !! "pin") as [record|]; reflexivity.
  - rewrite <- set_disk_same. now apply (healthy_served c).
  - eapply frame_trans; [exact F | apply frame_set_fates].
Qed.

(** Whatever storage does, [isPINSet] writes nothing and resolves with
    [true] only when the "pin" record is there. *)
Lemma isPINSet_any (w : World) :
  frame w (snd (isPINSet w))
  /\ (fst (isPINSet w) = Resolved true -> is_Some (settingsOf (disk w) !! "pin")).
Proof.
  pose proof (openDatabase_frame w) as F.
  unfold isPINSet, bind.
  destruct (openDatabase w) as [[c|e|] w1] eqn:Eo; simpl in *;
    [|split; [exact F | discriminate]..].
  unfold objectStore. destruct (contains (disk w1) settings) eqn:Ec; simpl;
    [|split; [exact F | discriminate]].
  assert (F' : forall fs, frame w (set_fates fs w1)).
  { intros fs. eapply frame_trans; [exact F | apply frame_set_fates]. }
  on_promise fs name r d Ee.
  - simpl. split; [apply F' | discriminate].
  - unfold get in Ee. destruct (settingStore (disk w1)) as [m|] eqn:Es; [|discriminate].
    injection Ee as <- <-. rewrite set_disk_same.
    assert (Ed : settingsOf (disk w) = m).
    { destruct F as (_ & <- & _). unfold settingsOf. now rewrite Es. }
    rewrite Ed.
    destruct (m !! "pin") as [record|]; simpl; (split; [apply F'|]);
      [eauto | discriminate].
Qed.

End PINWrites.

(** ** The authors *)

Section Keys.

Lemma keys_between_lt (lo hi : Z) (l : list Author) :
  keys_between lo l hi = true -> lo < hi.
Proof.
  revert lo. induction l as [|a l IH]; simpl; intros lo H.
  - now apply Z.ltb_lt.
  - apply andb_true_iff in H as [H1 H2]. apply Z.ltb_lt in H1.
    specialize (IH _ H2). lia.
Qed.

Lemma keys_between_bounds (lo hi : Z) (l : list Author) :
  keys_between lo l hi = true -> Forall (fun a => lo < a_id a < hi) l.
Proof.
  revert lo. induction l as [|a l IH]; simpl; intros lo H; [constructor|].
  apply andb_true_iff in H as [H1 H2]. apply Z.ltb_lt in H1.
  pose proof (keys_between_lt _ _ _ H2).
  constructor; [lia|].
  eapply Forall_impl; [apply IH, H2|]. simpl. intros b Hb. lia.
Qed.

Lemma keys_between_lower (lo lo' hi : Z) (l : list Author) :
  lo' <= lo -> keys_between lo l hi = true -> keys_between lo' l hi = true.
Proof.
  intros Hle. destruct l as [|a l]; simpl; intros H.
  - apply Z.ltb_lt in H. apply Z.ltb_lt. lia.
  - apply andb_true_iff in H as [H1 H2]. apply Z.ltb_lt in H1.
    rewrite H2, andb_true_r. apply Z.ltb_lt. lia.
Qed.

Lemma keys_between_add (lo hi : Z) (l : list Author) (name : string) :
  keys_between lo l hi = true ->
  keys_between lo (l ++ [mkAuthor hi name]) (hi + 1) = true.
Proof.
  revert lo. induction l as [|a l IH]; simpl; intros lo H.
  - rewrite H. simpl. apply Z.ltb_lt. lia.
  - apply andb_true_iff in H as [H1 H2]. now rewrite H1, IH.
Qed.

Lemma keys_between_filter (P : Author -> Prop) {Pdec : forall a, Decision (P a)}
    (lo hi : Z) (l : list Author) :
  keys_between lo l hi = true -> keys_between lo (filter P l) hi = true.
Proof.
  revert lo. induction l as [|a l IH]; simpl; intros lo H; [exact H|].
  apply andb_true_iff in H as [H1 H2].
  rewrite filter_cons. destruct (decide (P a)).
  - simpl. now rewrite H1, IH.
  - apply IH. eapply keys_between_lower; [|exact H2].
    apply Z.ltb_lt in H1. lia.
Qed.

Lemma keys_between_clear (lo hi : Z) (l : list Author) :
  keys_between lo l hi = true -> keys_between lo [] hi = true.
Proof. intros H. simpl. apply Z.ltb_lt. eapply keys_between_lt, H. Qed.

(** The generated key is in use by no record. *)
Lemma keys_between_fresh (lo : Z) (st : AuthorStore) :
  keys_between lo (records st) (keyGenerator st) = true ->
  hasKey (keyGenerator st) st = false.
Proof.
  intros H. apply keys_between_bounds in H.
  unfold hasKey. apply not_true_iff_false. intros E.
  apply existsb_exists in E as (a & Ha & Ea).
  rewrite Forall_forall in H. apply list_elem_of_In in Ha.
  specialize (H a Ha). apply Z.eqb_eq in Ea. lia.
Qed.

(** No two records have the same key. *)
Lemma keys_between_NoDup (lo hi : Z) (l : list Author) :
  keys_between lo l hi = true -> NoDup (map a_id l).
Proof.
  revert lo. induction l as [|a l IH]; simpl; intros lo H; [constructor|].
  apply andb_true_iff in H as [H1 H2]. constructor; [|eapply IH, H2].
  intros Hin. apply list_elem_of_In, in_map_iff in Hin as (b & Eb & Hb).
  apply keys_between_bounds in H2. rewrite Forall_forall in H2.
  apply list_elem_of_In in Hb. specialize (H2 b Hb). lia.
Qed.

End Keys.

Section Authors.

Import indexedDBService.

(** With its requests succeeding the cursor finds the author or reaches
    the end. *)
Lemma cursor_calm (lowercasedName : string) (l : list Author) (w : World) :
  calm w = true ->
  exists fs,
    calm (set_fates fs w) = true
    /\ cursor lowercasedName l w
       = (Resolved
            (existsb
               (fun a => String.eqb (JS.toLowerCase (a_name a)) lowercasedName) l),
          set_fates fs w).
Proof.
  revert w. induction l as [|a l IH]; intros w Hc;
    destruct (next_fate_calm w Hc) as (fs & En & Hfs); simpl; rewrite En.
  - now exists fs.
  - destruct (String.eqb (JS.toLowerCase (a_name a)) lowercasedName); simpl.
    + now exists fs.
    + destruct (IH _ Hfs) as (fs' & Hfs' & ->). now exists fs'.
Qed.

(** Whatever storage does, the cursor only uses up requests, never
    rejects, and answers truly when it answers. *)
Lemma cursor_any (lowercasedName : string) (l : list Author) (w : World) :
  exists fs,
    snd (cursor lowercasedName l w) = set_fates fs w
    /\ match fst (cursor lowercasedName l w) with
       | Resolved b =>
           b = existsb
                 (fun a => String.eqb (JS.toLowerCase (a_name a)) lowercasedName) l
       | Rejected _ => False
       | Pending => True
       end.
Proof.
  revert w. induction l as [|a l IH]; intros w;
    destruct (next_fate_any w) as [fs E]; simpl;
    destruct (next_fate w) as [[|name] w'] eqn:En; simpl in E; subst w'; simpl;
    try (now exists fs).
  destruct (String.eqb (JS.toLowerCase (a_name a)) lowercasedName); simpl.
  - now exists fs.
  - destruct (IH (set_fates fs w)) as (fs' & E' & M). exists fs'.
    rewrite E'. split; [reflexivity | exact M].
Qed.

Lemma authorExists_healthy (authorName : string) (w : World) :
  healthy w = true ->
  exists c w',
    authorExists authorName w = (Resolved (known authorName (authorList w)), w')
    /\ db w' = Some c /\ healthy w' = true /\ frame w w'.
Proof.
  intros H. destruct (openDatabase_healthy w H) as (c & w1 & Eo & Edb & H1 & F).
  destruct (healthy_open_stores c w1 H1 Edb) as (Hc & _ & _).
  destruct (healthy_has_stores c w1 H1 Edb) as [Hk Hs].
  unfold authorExists, bind.
  rewrite Eo, (objectStore_healthy c c blockedAuthors w1 H1 Edb).
  destruct (cursor_calm (JS.toLowerCase authorName) (authorsOf (disk w1)) w1 Hc)
    as (fs & Hfs & ->).
  exists c, (set_fates fs w1). destruct F as (Fa & Fs & Fl).
  unfold known, authorList in *. rewrite Fa. split; [reflexivity|].
  split; [exact Edb|]. split.
  - rewrite <- set_disk_same. now apply (healthy_served c).
  - repeat split; assumption.
Qed.

Lemma authorExists_any (authorName : string) (w : World) :
  frame w (snd (authorExists authorName w))
  /\ forall b, fst (authorExists authorName w) = Resolved b ->
               b = known authorName (authorList w).
Proof.
  pose proof (openDatabase_frame w) as F.
  unfold authorExists, bind.
  destruct (openDatabase w) as [[c|e|] w1] eqn:Eo; simpl in *;
    [|split; [exact F | discriminate]..].
  unfold objectStore. destruct (contains (disk w1) blockedAuthors) eqn:Ec; simpl;
    [|split; [exact F | discriminate]].
  destruct (cursor_any (JS.toLowerCase authorName) (authorsOf (disk w1)) w1)
    as (fs & E & M).
  rewrite E. split; [eapply frame_trans; [exact F | apply frame_set_fates]|].
  intros b Eb. rewrite Eb in M. destruct F as (Fa & _).
  unfold known, authorList in *. now rewrite <- Fa.
Qed.

Lemma add_effect (name : string) (key : Z) (d d' : Database) :
  add name d = inl (key, d') ->
  authorsOf d' = authorsOf d ++ [mkAuthor key name]
  /\ settingsOf d' = settingsOf d
  /\ (keys_ok d = true -> keys_ok d' = true)
  /\ (has_stores d = true -> has_stores d' = true)
  /\ (keys_ok d = true -> Forall (fun a => a_id a < key) (authorsOf d)).
Proof.
  unfold add. destruct (authorStore d) as [st|] eqn:Ea; [|discriminate].
  destruct (hasKey (keyGenerator st) st); [discriminate|].
  intros E. injection E as <- <-.
  unfold authorsOf, settingsOf, keys_ok, has_stores, contains. simpl. rewrite Ea.
  repeat split; [apply keys_between_add | auto |].
  intros Hk. apply keys_between_bounds in Hk.
  eapply Forall_impl; [exact Hk|]. simpl. intros a Ha. lia.
Qed.

Lemma delete_effect (key : Z) (d d' : Database) :
  delete key d = inl (tt, d') ->
  authorsOf d' = filter (fun a => a_id a ≠ key) (authorsOf d)
  /\ settingsOf d' = settingsOf d
  /\ (keys_ok d = true -> keys_ok d' = true)
  /\ (has_stores d = true -> has_stores d' = true).
Proof.
  unfold delete. destruct (authorStore d) as [st|] eqn:Ea; [|discriminate].
  intros E. injection E as <-.
  unfold authorsOf, settingsOf, keys_ok, has_stores, contains. simpl. rewrite Ea.
  repeat split; [apply keys_between_filter | auto].
Qed.

Lemma clear_effect (d d' : Database) :
  clear d = inl (tt, d') ->
  authorsOf d' = []
  /\ settingsOf d' = settingsOf d
  /\ (keys_ok d = true -> keys_ok d' = true)
  /\ (has_stores d = true -> has_stores d' = true).
Proof.
  unfold clear. destruct (authorStore d) as [st|] eqn:Ea; [|discriminate].
  intros E. injection E as <-.
  unfold authorsOf, settingsOf, keys_ok, has_stores, contains. simpl. rewrite Ea.
  repeat split; [apply keys_between_clear | auto].
Qed.

Lemma getAll_effect (l : list Author) (d d' : Database) :
  getAll d = inl (l, d') -> d' = d /\ l = authorsOf d.
Proof.
  unfold getAll, authorsOf. destruct (authorStore d) as [st|]; [|discriminate].
  intros E. injection E as <- <-. auto.
Qed.

End Authors.

Section StoreCalls.

Import indexedDBService.

Context {R A : Type} (name : StoreName) (effect : Effect R) (g : R -> A).

(** With storage at work a request that the store can carry out is
    carried out, and the promise resolves with its result. *)
Lemma storeCall_healthy (w : World) :
  healthy w = true ->
  (forall d, keys_ok d = true -> has_stores d = true ->
             exists r d', effect d = inl (r, d')) ->
  (forall d r d', effect d = inl (r, d') ->
                  (keys_ok d = true -> keys_ok d' = true)
                  /\ (has_stores d = true -> has_stores d' = true)) ->
  exists c w1 fs r d',
    frame w w1
    /\ keys_ok (disk w1) = true
    /\ effect (disk w1) = inl (r, d')
    /\ storeCall name effect g w = (Resolved (g r), set_disk d' (set_fates fs w1))
    /\ db (set_disk d' (set_fates fs w1)) = Some c
    /\ healthy (set_disk d' (set_fates fs w1)) = true.
Proof.
  intros H Htotal Hkeeps.
  destruct (openDatabase_healthy w H) as (c & w1 & Eo & Edb & H1 & F).
  destruct (healthy_open_stores c w1 H1 Edb) as (Hc & _ & _).
  destruct (healthy_has_stores c w1 H1 Edb) as [Hk Hs].
  destruct (Htotal _ Hk Hs) as (r & d' & Ee).
  destruct (Hkeeps _ _ _ Ee) as [Kk Ks].
  unfold storeCall, bind. rewrite Eo, (objectStore_healthy c c name w1 H1 Edb).
  on_promise_calm Hc fs Hfs. rewrite Ee.
  exists c, w1, fs, r, d'. repeat split; try assumption; try apply F.
  apply (healthy_served c); auto.
Qed.

(** Whatever storage does, the promise settles: it rejects and the
    records are as they were, or the request was carried out and it
    resolves with the result. *)
Lemma storeCall_any (w : World) :
  (frame w (snd (storeCall name effect g w))
   /\ exists e, fst (storeCall name effect g w) = Rejected e)
  \/ (exists w1 fs r d',
         frame w w1
         /\ effect (disk w1) = inl (r, d')
         /\ storeCall name effect g w = (Resolved (g r), set_disk d' (set_fates fs w1))).
Proof.
  pose proof (openDatabase_frame w) as F.
  pose proof (openDatabase_settled w) as NP.
  unfold storeCall, bind.
  destruct (openDatabase w) as [[c|e|] w1] eqn:Eo; simpl in *;
    [|left; eauto|contradiction].
  unfold objectStore. destruct (contains (disk w1) name) eqn:Ec; simpl;
    [|left; eauto].
  on_promise fs ename r d Ee.
  - left. split; [eapply frame_trans; [exact F | apply frame_set_fates] | eauto].
  - right. exists w1, fs, r, d. auto.
Qed.

End StoreCalls.

Section AuthorCalls.

Import indexedDBService.

(** The calls of the module that have this shape. *)
Lemma calls_of_one_request :
  (forall id, deleteAuthor id = storeCall blockedAuthors (delete id) (fun r => r))
  /\ getAuthors = storeCall blockedAuthors getAll (fun r => r)
  /\ clearAuthors = storeCall blockedAuthors clear (fun _ => tt)
  /\ (forall pin,
         setPIN pin
         = storeCall settings
             (put (mkSetting "pin" "pin" (hashUtils.hashString pin)))
             (fun _ => tt)).
Proof. repeat split. Qed.

Lemma has_stores_authorStore (d : Database) :
  has_stores d = true -> exists st, authorStore d = Some st.
Proof.
  unfold has_stores, contains. intros H.
  apply andb_true_iff in H as [H _]. now apply bool_decide_eq_true in H.
Qed.

Lemma deleteAuthor_healthy (id : Z) (w : World) :
  healthy w = true ->
  exists c w',
    deleteAuthor id w = (Resolved tt, w')
    /\ db w' = Some c /\ healthy w' = true
    /\ authorList w' = filter (fun a => a_id a ≠ id) (authorList w)
    /\ settingsOf (disk w') = settingsOf (disk w)
    /\ alerts w' = alerts w.
Proof.
  intros H.
  destruct (storeCall_healthy blockedAuthors (delete id) (fun r => r) w H)
    as (c & w1 & fs & [] & d' & (Fa & Fs & Fl) & _ & Ee & E & Edb & Hh).
  - intros d _ Hs. destruct (has_stores_authorStore d Hs) as [st Ea].
    unfold delete. rewrite Ea. eauto.
  - intros d [] d' Ee. apply (delete_effect _ _ _ Ee).
  - destruct (delete_effect _ _ _ Ee) as (Da & Ds & _).
    exists c, (set_disk d' (set_fates fs w1)). split; [exact E|].
    unfold authorList in *. simpl. rewrite Da, Ds, Fa, Fs. auto.
Qed.

Lemma deleteAuthor_any (id : Z) (w : World) :
  (authorList (snd (deleteAuthor id w)) = authorList w
   \/ authorList (snd (deleteAuthor id w))
      = filter (fun a => a_id a ≠ id) (authorList w))
  /\ settingsOf (disk (snd (deleteAuthor id w))) = settingsOf (disk w).
Proof.
  destruct (storeCall_any blockedAuthors (delete id) (fun r => r) w)
    as [[(Fa & Fs & Fl) _]|(w1 & fs & [] & d' & (Fa & Fs & Fl) & Ee & E)].
  - split; [left; exact Fa | exact Fs].
  - destruct (delete_effect _ _ _ Ee) as (Da & Ds & _).
    assert (E' : deleteAuthor id w = _) by exact E. rewrite E'. unfold authorList in *. simpl. rewrite Da, Ds, Fa, Fs. auto.
Qed.

Lemma clearAuthors_healthy (w : World) :
  healthy w = true ->
  exists c w',
    clearAuthors w = (Resolved tt, w')
    /\ db w' = Some c /\ healthy w' = true
    /\ authorList w' = []
    /\ settingsOf (disk w') = settingsOf (disk w)
    /\ alerts w' = alerts w.
Proof.
  intros H.
  destruct (storeCall_healthy blockedAuthors clear (fun _ => tt) w H)
    as (c & w1 & fs & [] & d' & (Fa & Fs & Fl) & _ & Ee & E & Edb & Hh).
  - intros d _ Hs. destruct (has_stores_authorStore d Hs) as [st Ea].
    unfold clear. rewrite Ea. eauto.
  - intros d [] d' Ee. apply (clear_effect _ _ Ee).
  - destruct (clear_effect _ _ Ee) as (Da & Ds & _).
    exists c, (set_disk d' (set_fates fs w1)). split; [exact E|].
    unfold authorList in *. simpl. rewrite Da, Ds, Fs. auto.
Qed.

Lemma clearAuthors_any (w : World) :
  (authorList (snd (clearAuthors w)) = authorList w
   \/ authorList (snd (clearAuthors w)) = [])
  /\ settingsOf (disk (snd (clearAuthors w))) = settingsOf (disk w).
Proof.
  destruct (storeCall_any blockedAuthors clear (fun _ => tt) w)
    as [[(Fa & Fs & Fl) _]|(w1 & fs & [] & d' & (Fa & Fs & Fl) & Ee & E)].
  - split; [left; exact Fa | exact Fs].
  - destruct (clear_effect _ _ Ee) as (Da & Ds & _).
    assert (E' : clearAuthors w = _) by exact E. rewrite E'. unfold authorList in *. simpl. rewrite Da, Ds, Fs. auto.
Qed.

Lemma getAuthors_healthy (w : World) :
  healthy w = true ->
  exists w',
    getAuthors w = (Resolved (authorList w), w')
    /\ healthy w' = true /\ frame w w'.
Proof.
  intros H.
  destruct (storeCall_healthy blockedAuthors getAll (fun r => r) w H)
    as (c & w1 & fs & l & d' & (Fa & Fs & Fl) & _ & Ee & E & Edb & Hh).
  - intros d _ Hs. destruct (has_stores_authorStore d Hs) as [st Ea].
    unfold getAll. rewrite Ea. eauto.
  - intros d l d' Ee. destruct (getAll_effect _ _ _ Ee) as [-> _]. auto.
  - destruct (getAll_effect _ _ _ Ee) as [-> ->].
    exists (set_disk (disk w1) (set_fates fs w1)).
    unfold authorList in *. rewrite <- Fa. split; [exact E|]. split; [exact Hh|].
    repeat split; assumption.
Qed.

(** Whatever storage does, [getAuthors] settles and changes nothing; when
    it resolves, it is with the records of the store. *)
Lemma getAuthors_any (w : World) :
  frame w (snd (getAuthors w))
  /\ match fst (getAuthors w) with
     | Resolved l => l = authorList w
     | Rejected _ => True
     | Pending => False
     end.
Proof.
  destruct (storeCall_any blockedAuthors getAll (fun r => r) w)
    as [[F [e Ee]]|(w1 & fs & l & d' & (Fa & Fs & Fl) & Ee & E)].
  - split; [exact F|].
    assert (Ee' : fst (getAuthors w) = Rejected e) by exact Ee. now rewrite Ee'.
  - destruct (getAll_effect _ _ _ Ee) as [-> ->].
    assert (E' : getAuthors w = _) by exact E. rewrite E'. simpl. unfold frame, authorList in *. simpl. auto.
Qed.

End AuthorCalls.

Section AddAuthor.

Import indexedDBService.

(** [addAuthor] after its look-up. *)
Lemma addAuthor_unfold (authorName : string) (w : World) :
  addAuthor authorName w
  = match authorExists authorName w with
    | (Resolved true, w1) =>
        (Resolved None, snd (alert ("Author already exists: " +:+ authorName) w1))
    | (Resolved false, w1) =>
        storeCall blockedAuthors (add (JS.toLowerCase authorName)) Some w1
    | (Rejected e, w1) => (Rejected e, w1)
    | (Pending, w1) => (Pending, w1)
    end.
Proof.
  unfold addAuthor, bind.
  destruct (authorExists authorName w) as [[[]|e|] w1]; reflexivity.
Qed.

Lemma addAuthor_healthy (authorName : string) (w : World) :
  healthy w = true ->
  exists c w',
    db w' = Some c /\ healthy w' = true
    /\ settingsOf (disk w') = settingsOf (disk w)
    /\ if known authorName (authorList w)
       then addAuthor authorName w = (Resolved None, w')
            /\ authorList w' = authorList w
            /\ alerts w' = alerts w ++ ["Author already exists: " +:+ authorName]
       else exists key,
           addAuthor authorName w = (Resolved (Some key), w')
           /\ authorList w'
              = authorList w ++ [mkAuthor key (JS.toLowerCase authorName)]
           /\ alerts w' = alerts w
           /\ Forall (fun a => a_id a < key) (authorList w).
Proof.
  intros H.
  destruct (authorExists_healthy authorName w H)
    as (c & w1 & E1 & Edb1 & H1 & (Fa & Fs & Fl)).
  rewrite addAuthor_unfold, E1.
  destruct (known authorName (authorList w)).
  - exists c, (snd (alert ("Author already exists: " +:+ authorName) w1)).
    split; [exact Edb1|]. split; [exact H1|]. split; [exact Fs|].
    split; [reflexivity|]. split; [exact Fa|].
    simpl. now rewrite Fl.
  - destruct (storeCall_healthy blockedAuthors (add (JS.toLowerCase authorName)) Some w1 H1)
      as (c2 & w2 & fs & key & d' & (Ga & Gs & Gl) & Hk2 & Ee & E & Edb & Hh).
    + intros d Hk Hs. destruct (has_stores_authorStore d Hs) as [st Ea].
      unfold add. rewrite Ea.
      unfold keys_ok in Hk. rewrite Ea in Hk.
      rewrite (keys_between_fresh 0 st Hk). eauto.
    + intros d r d' Ee. destruct (add_effect _ _ _ _ Ee) as (_ & _ & Kk & Ks & _). auto.
    + destruct (add_effect _ _ _ _ Ee) as (Da & Ds & _ & _ & Dk).
      exists c2, (set_disk d' (set_fates fs w2)).
      unfold authorList in *. simpl. rewrite Ds, Gs, Fs.
      repeat split; try assumption.
      exists key. rewrite E, Da, Ga, Fa, Gl, Fl. repeat split.
      rewrite <- Fa, <- Ga. auto.
Qed.

End AddAuthor.

Section Sequences.

Import indexedDBService.

(** Whatever storage does, [addAuthor] leaves the settings alone, and
    the authors too unless it found no record of that name and put one
    at the end. *)
Lemma addAuthor_any (authorName : string) (w : World) :
  settingsOf (disk (snd (addAuthor authorName w))) = settingsOf (disk w)
  /\ (authorList (snd (addAuthor authorName w)) = authorList w
      \/ (known authorName (authorList w) = false
          /\ exists key,
              authorList (snd (addAuthor authorName w))
              = authorList w ++ [mkAuthor key (JS.toLowerCase authorName)])).
Proof.
  destruct (authorExists_any authorName w) as [(Fa & Fs & Fl) Hb].
  rewrite addAuthor_unfold.
  destruct (authorExists authorName w) as [[[]|e|] w1]; simpl in *; auto.
  specialize (Hb false eq_refl).
  destruct (storeCall_any blockedAuthors (add (JS.toLowerCase authorName)) Some w1)
    as [[(Ga & Gs & Gl) _]|(w2 & fs & key & d' & (Ga & Gs & Gl) & Ee & E)].
  - split; [congruence | left; congruence].
  - destruct (add_effect _ _ _ _ Ee) as (Da & Ds & _).
    rewrite E. unfold authorList in *. simpl. rewrite Da, Ds, Ga, Gs, Fa, Fs.
    split; [reflexivity|]. right. split; [auto | eauto].
Qed.

Lemma updatePIN_healthy (oldPIN newPIN : string) (w : World) :
  healthy w = true -> healthy (snd (updatePIN oldPIN newPIN w)) = true.
Proof.
  intros H. rewrite updatePIN_unfold.
  destruct (verifyPIN_healthy oldPIN w H) as (c & w1 & -> & _ & H1 & _).
  destruct (bool_decide _); [|exact H1].
  destruct (setPIN_healthy newPIN w1 H1) as (c' & w2 & -> & _ & H2 & _).
  exact H2.
Qed.

(** Whatever storage does, [updatePIN] touches no author, and writes the
    "pin" record only when there was one. *)
Lemma updatePIN_any (oldPIN newPIN : string) (w : World) :
  authorList (snd (updatePIN oldPIN newPIN w)) = authorList w
  /\ (settingsOf (disk w) !! "pin" = None ->
      settingsOf (disk (snd (updatePIN oldPIN newPIN w))) = settingsOf (disk w)).
Proof.
  destruct (verifyPIN_any oldPIN w) as [(Fa & Fs & Fl) Hv].
  rewrite updatePIN_unfold.
  destruct (verifyPIN oldPIN w) as [[[]|e|] w1]; simpl in *; auto.
  destruct (setPIN_any newPIN w1) as (Sa & _ & _).
  split; [congruence|].
  intros Hnone. specialize (Hv eq_refl).
  unfold storedDigest in Hv. rewrite Hnone in Hv. discriminate.
Qed.

(** Storage at work stays at work through every call. *)
Lemma after_healthy (c : Call) (w : World) :
  healthy w = true -> healthy (after w c) = true.
Proof.
  intros H. destruct c as [name|id| | |pin|pin|oldPIN newPIN|]; simpl.
  - destruct (addAuthor_healthy name w H) as (c & w' & _ & H' & _ & Hcase).
    destruct (known name (authorList w)).
    + destruct Hcase as (-> & _). exact H'.
    + destruct Hcase as (key & -> & _). exact H'.
  - destruct (deleteAuthor_healthy id w H) as (c & w' & -> & _ & H' & _). exact H'.
  - destruct (clearAuthors_healthy w H) as (c & w' & -> & _ & H' & _). exact H'.
  - destruct (getAuthors_healthy w H) as (w' & -> & H' & _). exact H'.
  - destruct (setPIN_healthy pin w H) as (c & w' & -> & _ & H' & _). exact H'.
  - destruct (verifyPIN_healthy pin w H) as (c & w' & -> & _ & H' & _). exact H'.
  - now apply updatePIN_healthy.
  - destruct (isPINSet_healthy w H) as (w' & -> & H' & _). exact H'.
Qed.

Lemma after_all_healthy (calls : list Call) (w : World) :
  healthy w = true -> healthy (after_all calls w) = true.
Proof.
  revert w. induction calls as [|c calls IH]; intros w H; [exact H|].
  apply IH, after_healthy, H.
Qed.

(** Without a call of [setPIN] no "pin" record comes to be. *)
Lemma after_no_pin (c : Call) (w : World) :
  isSetPIN c = false ->
  settingsOf (disk w) !! "pin" = None ->
  settingsOf (disk (after w c)) !! "pin" = None.
Proof.
  intros Hc Hnone.
  destruct c as [name|id| | |pin|pin|oldPIN newPIN|]; simpl; try discriminate.
  - destruct (addAuthor_any name w) as [-> _]. exact Hnone.
  - destruct (deleteAuthor_any id w) as [_ ->]. exact Hnone.
  - destruct (clearAuthors_any w) as [_ ->]. exact Hnone.
  - destruct (getAuthors_any w) as [(_ & -> & _) _]. exact Hnone.
  - destruct (verifyPIN_any pin w) as [(_ & -> & _) _]. exact Hnone.
  - destruct (updatePIN_any oldPIN newPIN w) as [_ ->]; exact Hnone.
  - destruct (isPINSet_any w) as [(_ & -> & _) _]. exact Hnone.
Qed.

Lemma after_all_no_pin (calls : list Call) (w : World) :
  forallb (fun c => negb (isSetPIN c)) calls = true ->
  settingsOf (disk w) !! "pin" = None ->
  settingsOf (disk (after_all calls w)) !! "pin" = None.
Proof.
  revert w. induction calls as [|c calls IH]; intros w Hc Hnone; [exact Hnone|].
  simpl in Hc. apply andb_true_iff in Hc as [Hc Hcs].
  apply IH; [exact Hcs|]. apply after_no_pin; [|exact Hnone].
  now apply negb_true_iff.
Qed.

End Sequences.

(** ** Names without duplicates *)

Section Names.

Import indexedDBService.

Lemma known_true (name : string) (l : list Author) :
  known name l = true <-> exists a, a ∈ l /\ sameAuthor name a.
Proof.
  unfold known, sameAuthor. rewrite existsb_exists. split.
  - intros (a & Ha & E). exists a.
    split; [now apply list_elem_of_In | now apply String.eqb_eq].
  - intros (a & Ha & E). exists a.
    split; [now apply list_elem_of_In | now apply String.eqb_eq].
Qed.

Lemma known_false (name : string) (l : list Author) :
  known name l = false <-> forall a, a ∈ l -> ~ sameAuthor name a.
Proof.
  rewrite <- not_true_iff_false, known_true. split.
  - intros H a Ha E. apply H. eauto.
  - intros H (a & Ha & E). exact (H a Ha E).
Qed.

(** What decides the look-up is the lower case of the name. *)
Lemma known_lowercase (n1 n2 : string) (l : list Author) :
  JS.toLowerCase n1 = JS.toLowerCase n2 -> known n1 l = known n2 l.
Proof. intros E. unfold known. now rewrite E. Qed.

Lemma known_app (name : string) (l1 l2 : list Author) :
  known name (l1 ++ l2) = known name l1 || known name l2.
Proof. unfold known. apply existsb_app. Qed.

(** The record [addAuthor] stores is known under the name it was added
    with. *)
Lemma known_stored (name : string) (key : Z) :
  known name [mkAuthor key (JS.toLowerCase name)] = true.
Proof.
  unfold known. simpl. rewrite toLowerCase_idempotent, String.eqb_refl. reflexivity.
Qed.

Lemma filter_unknown (name : string) (l : list Author) :
  known name l = false ->
  filter (fun a => JS.toLowerCase (a_name a) = JS.toLowerCase name) l = [].
Proof.
  induction l as [|a l IH]; [reflexivity|].
  unfold known. simpl. intros H. apply orb_false_iff in H as [Ha Hl].
  rewrite filter_cons. destruct (decide _) as [E|_]; [|now apply IH].
  apply String.eqb_neq in Ha. contradiction.
Qed.

(** Among names without duplicates a known author has one record. *)
Lemma filter_known_unique (name : string) (l : list Author) :
  unique_names l -> known name l = true ->
  exists a, filter (fun a => JS.toLowerCase (a_name a) = JS.toLowerCase name) l = [a].
Proof.
  unfold unique_names. induction l as [|a l IH]; [discriminate|].
  simpl. intros Hnd H. apply NoDup_cons in Hnd as [Hnotin Hnd].
  rewrite filter_cons. destruct (decide _) as [E|NE].
  - exists a. f_equal. apply filter_unknown, known_false.
    intros b Hb Eb. apply Hnotin. unfold sameAuthor in Eb. rewrite E, <- Eb.
    apply list_elem_of_In, in_map_iff. exists b.
    split; [reflexivity | now apply list_elem_of_In].
  - apply IH; [exact Hnd|].
    unfold known in H. simpl in H. apply orb_true_iff in H as [H|H]; [|exact H].
    apply String.eqb_eq in H. contradiction.
Qed.

Lemma unique_names_add (name : string) (key : Z) (l : list Author) :
  unique_names l -> known name l = false ->
  unique_names (l ++ [mkAuthor key (JS.toLowerCase name)]).
Proof.
  unfold unique_names. intros Hnd H. rewrite map_app. simpl.
  apply NoDup_app. split; [exact Hnd|]. split; [|apply NoDup_singleton].
  intros x Hx Hx'. apply list_elem_of_singleton in Hx'. subst x.
  rewrite toLowerCase_idempotent in Hx.
  apply list_elem_of_In, in_map_iff in Hx as (a & Ea & Ha).
  rewrite known_false in H. apply (H a); [now apply list_elem_of_In | exact Ea].
Qed.

Lemma unique_names_filter (P : Author -> Prop) {Pdec : forall a, Decision (P a)}
    (l : list Author) :
  unique_names l -> unique_names (filter P l).
Proof.
  unfold unique_names. induction l as [|a l IH]; [auto|].
  simpl. intros Hnd. apply NoDup_cons in Hnd as [Hnotin Hnd].
  rewrite filter_cons. destruct (decide (P a)); [|now apply IH].
  simpl. apply NoDup_cons. split; [|now apply IH].
  intros Hin. apply Hnotin.
  apply list_elem_of_In, in_map_iff in Hin as (b & Eb & Hb).
  apply list_elem_of_In, in_map_iff. exists b. split; [exact Eb|].
  apply list_elem_of_In. apply list_elem_of_In in Hb.
  now apply list_elem_of_filter in Hb as [_ Hb].
Qed.

(** Every call keeps the lowercase names without duplicates, whatever
    storage does. *)
Lemma after_unique_names (c : Call) (w : World) :
  unique_names (authorList w) -> unique_names (authorList (after w c)).
Proof.
  intros U. destruct c as [name|id| | |pin|pin|oldPIN newPIN|]; simpl.
  - destruct (addAuthor_any name w) as [_ [->|(Hk & key & ->)]]; [exact U|].
    now apply unique_names_add.
  - destruct (deleteAuthor_any id w) as [[->| ->] _]; [exact U|].
    now apply unique_names_filter.
  - destruct (clearAuthors_any w) as [[->| ->] _]; [exact U | constructor].
  - destruct (getAuthors_any w) as [(-> & _) _]. exact U.
  - destruct (setPIN_any pin w) as (-> & _). exact U.
  - destruct (verifyPIN_any pin w) as [(-> & _) _]. exact U.
  - destruct (updatePIN_any oldPIN newPIN w) as [-> _]. exact U.
  - destruct (isPINSet_any w) as [(-> & _) _]. exact U.
Qed.

Lemma after_all_unique_names (calls : list Call) (w : World) :
  unique_names (authorList w) -> unique_names (authorList (after_all calls w)).
Proof.
  revert w. induction calls as [|c calls IH]; intros w U; [exact U|].
  apply IH, after_unique_names, U.
Qed.

Lemma lowercased_add (name : string) (key : Z) (l : list Author) :
  lowercased l -> lowercased (l ++ [mkAuthor key (JS.toLowerCase name)]).
Proof.
  intros L. apply Forall_app. split; [exact L|].
  constructor; [apply toLowerCase_idempotent | constructor].
Qed.

(** Every call keeps the stored names in lower case, whatever storage
    does. *)
Lemma after_lowercased (c : Call) (w : World) :
  lowercased (authorList w) -> lowercased (authorList (after w c)).
Proof.
  intros L. destruct c as [name|id| | |pin|pin|oldPIN newPIN|]; simpl.
  - destruct (addAuthor_any name w) as [_ [->|(Hk & key & ->)]]; [exact L|].
    now apply lowercased_add.
  - destruct (deleteAuthor_any id w) as [[->| ->] _]; [exact L|].
    unfold lowercased in *. rewrite Forall_forall in *.
    intros a Ha. apply list_elem_of_filter in Ha as [_ Ha]. now apply L.
  - destruct (clearAuthors_any w) as [[->| ->] _]; [exact L | constructor].
  - destruct (getAuthors_any w) as [(-> & _) _]. exact L.
  - destruct (setPIN_any pin w) as (-> & _). exact L.
  - destruct (verifyPIN_any pin w) as [(-> & _) _]. exact L.
  - destruct (updatePIN_any oldPIN newPIN w) as [-> _]. exact L.
  - destruct (isPINSet_any w) as [(-> & _) _]. exact L.
Qed.

Lemma after_all_lowercased (calls : list Call) (w : World) :
  lowercased (authorList w) -> lowercased (authorList (after_all calls w)).
Proof.
  revert w. induction calls as [|c calls IH]; intros w L; [exact L|].
  apply IH, after_lowercased, L.
Qed.

(** With no storage failure, every world the calls of the module lead to
    from a new machine has storage at work. *)
Lemma reachable_healthy (calls : list Call) :
  healthy (after_all calls fresh) = true.
Proof. now apply after_all_healthy. Qed.

Lemma healthy_keys_NoDup (w : World) :
  healthy w = true -> NoDup (map a_id (authorList w)).
Proof.
  unfold healthy, keys_ok, authorList, authorsOf. intros H.
  apply andb_true_iff in H as [H _]. apply andb_true_iff in H as [_ H].
  destruct (authorStore (disk w)) as [st|]; [|constructor].
  eapply keys_between_NoDup, H.
Qed.

(** Taking out a key that no record has takes out nothing. *)
Lemma filter_key_absent (key : Z) (l : list Author) :
  (forall a, a ∈ l -> a_id a ≠ key) ->
  filter (fun b => a_id b ≠ key) l = l.
Proof.
  induction l as [|x l IH]; intros H; [reflexivity|].
  rewrite filter_cons. destruct (decide (a_id x ≠ key)) as [_|E].
  - f_equal. apply IH. intros a Ha. apply H, elem_of_cons. now right.
  - exfalso. apply E, H, elem_of_cons. now left.
Qed.

(** Taking out the key of a record of a store without duplicate keys
    takes out that record and no other. *)
Lemma filter_key_length (a : Author) (l : list Author) :
  NoDup (map a_id l) -> a ∈ l ->
  length l = S (length (filter (fun b => a_id b ≠ a_id a) l)).
Proof.
  induction l as [|b l IH]; intros Hnd Ha; [now apply elem_of_nil in Ha|].
  simpl in Hnd. apply NoDup_cons in Hnd as [Hnotin Hnd].
  rewrite filter_cons. destruct (decide (a_id b ≠ a_id a)) as [NE|E].
  - simpl. f_equal. apply IH; [exact Hnd|].
    apply elem_of_cons in Ha as [->|Ha]; [contradiction | exact Ha].
  - apply dec_stable in E. simpl. f_equal.
    rewrite filter_key_absent; [reflexivity|].
    intros x Hx Ex. apply Hnotin. rewrite E, <- Ex.
    apply list_elem_of_In, in_map_iff. exists x.
    split; [reflexivity | now apply list_elem_of_In].
Qed.

End Names.

(* ===================================================================== *)
(** * The PIN authenticator *)
(* ===================================================================== *)

Lemma storedDigest_after_put (digest : string) (w w' : World) :
  settingsOf (disk w') = <["pin" := mkSetting "pin" "pin" digest]> (settingsOf (disk w)) ->
  storedDigest w' = Some digest.
Proof. unfold storedDigest. intros ->. now rewrite lookup_insert_eq. Qed.

(** C1. With storage at work, [verifyPIN(p)] resolves, and with [true] if
    and only if the SHA-256 hex digest of [p] equals the digest stored in
    the "pin" settings record; when there is no "pin" record it resolves
    with [false] for every [p], without throwing. *)
Theorem verifyPIN_true_iff_digest_matches (p : string) (w : World) :
  healthy w = true ->
  exists b w',
    indexedDBService.verifyPIN p w = (Resolved b, w')
    /\ (b = true <-> storedDigest w = Some (hashUtils.hashString p))
    /\ (settingsOf (disk w) !! "pin" = None -> b = false).
Proof.
  intros H. destruct (verifyPIN_healthy p w H) as (c & w' & E & _).
  eexists _, w'. split; [exact E|]. split.
  - apply bool_decide_eq_true.
  - intros Hnone. apply bool_decide_eq_false.
    unfold storedDigest. rewrite Hnone. discriminate.
Qed.

Lemma verifyPIN_true_iff_digest_matches_witness :
  healthy pinned = true
  /\ exists b w',
      indexedDBService.verifyPIN "123456" pinned = (Resolved b, w')
      /\ (b = true <-> storedDigest pinned = Some (hashUtils.hashString "123456"))
      /\ (settingsOf (disk pinned) !! "pin" = None -> b = false).
Proof.
  split; [vm_compute; reflexivity|].
  apply (verifyPIN_true_iff_digest_matches "123456" pinned).
  vm_compute. reflexivity.
Defined.

(** The scenario of the specification: after [setPIN("123456")] on a new
    machine, [isPINSet()] is true, [verifyPIN("123456")] is true and
    [verifyPIN("654321")] is false. *)
Example scenario_set_then_verify :
  fst (indexedDBService.isPINSet pinned) = Resolved true
  /\ fst (indexedDBService.verifyPIN "123456" pinned) = Resolved true
  /\ fst (indexedDBService.verifyPIN "654321" pinned) = Resolved false.
Proof. vm_compute. auto. Qed.

(** C2. If [verifyPIN(old)] resolves with [false], [updatePIN(old, new)]
    rejects with the error "Old PIN is incorrect." and writes nothing: the
    settings, and the stored digest with them, are as before.  If
    [verifyPIN(old)] resolves with [true] and storage is at work,
    [updatePIN(old, new)] resolves, the stored digest is that of [new],
    [verifyPIN(new)] then resolves with [true], and [verifyPIN(old)] with
    [false] when the digest of [old] is not that of [new]. *)
Theorem updatePIN_reauthenticates (oldPIN newPIN : string) (w : World) :
  (fst (indexedDBService.verifyPIN oldPIN w) = Resolved false ->
   fst (indexedDBService.updatePIN oldPIN newPIN w)
   = Rejected (ErrError "Old PIN is incorrect.")
   /\ settingsOf (disk (snd (indexedDBService.updatePIN oldPIN newPIN w)))
      = settingsOf (disk w)
   /\ storedDigest (snd (indexedDBService.updatePIN oldPIN newPIN w))
      = storedDigest w)
  /\ (healthy w = true ->
      fst (indexedDBService.verifyPIN oldPIN w) = Resolved true ->
      exists w',
        indexedDBService.updatePIN oldPIN newPIN w = (Resolved tt, w')
        /\ storedDigest w' = Some (hashUtils.hashString newPIN)
        /\ fst (indexedDBService.verifyPIN newPIN w') = Resolved true
        /\ (hashUtils.hashString oldPIN <> hashUtils.hashString newPIN ->
            fst (indexedDBService.verifyPIN oldPIN w') = Resolved false)).
Proof.
  split.
  - intros Hv. destruct (verifyPIN_any oldPIN w) as [(_ & Fs & _) _].
    rewrite updatePIN_unfold.
    destruct (indexedDBService.verifyPIN oldPIN w) as [[[]|e|] w1];
      simpl in Hv; try discriminate.
    simpl in *. unfold storedDigest. now rewrite Fs.
  - intros H Hv. rewrite updatePIN_unfold.
    destruct (verifyPIN_healthy oldPIN w H) as (c & w1 & E1 & _ & H1 & _).
    rewrite E1 in *. simpl in Hv. injection Hv as ->.
    destruct (setPIN_healthy newPIN w1 H1) as (c' & w2 & E2 & _ & H2 & _ & _ & Es).
    exists w2. split; [exact E2|].
    pose proof (storedDigest_after_put _ _ _ Es) as Ed. split; [exact Ed|].
    split.
    + destruct (verifyPIN_healthy newPIN w2 H2) as (c3 & w3 & -> & _).
      simpl. now rewrite Ed, bool_decide_eq_true_2.
    + intros Hne. destruct (verifyPIN_healthy oldPIN w2 H2) as (c3 & w3 & -> & _).
      simpl. rewrite Ed, bool_decide_eq_false_2; [reflexivity|].
      intros E. injection E as E. auto.
Qed.

Lemma updatePIN_reauthenticates_witness :
  (fst (indexedDBService.verifyPIN "654321" pinned) = Resolved false
   /\ fst (indexedDBService.updatePIN "654321" "111111" pinned)
      = Rejected (ErrError "Old PIN is incorrect.")
   /\ storedDigest (snd (indexedDBService.updatePIN "654321" "111111" pinned))
      = storedDigest pinned)
  /\ (healthy pinned = true
      /\ fst (indexedDBService.verifyPIN "123456" pinned) = Resolved true
      /\ hashUtils.hashString "123456" <> hashUtils.hashString "654321"
      /\ exists w',
          indexedDBService.updatePIN "123456" "654321" pinned = (Resolved tt, w')
          /\ fst (indexedDBService.verifyPIN "654321" w') = Resolved true
          /\ fst (indexedDBService.verifyPIN "123456" w') = Resolved false).
Proof.
  assert (Hf : fst (indexedDBService.verifyPIN "654321" pinned) = Resolved false)
    by (vm_compute; reflexivity).
  assert (Ht : fst (indexedDBService.verifyPIN "123456" pinned) = Resolved true)
    by (vm_compute; reflexivity).
  assert (Hh : healthy pinned = true) by (vm_compute; reflexivity).
  assert (Hne : hashUtils.hashString "123456" <> hashUtils.hashString "654321")
    by (vm_compute; discriminate).
  split.
  - destruct (updatePIN_reauthenticates "654321" "111111" pinned) as [A _].
    destruct (A Hf) as (A1 & _ & A3). auto.
  - destruct (updatePIN_reauthenticates "123456" "654321" pinned) as [_ B].
    destruct (B Hh Ht) as (w' & B1 & _ & B3 & B4).
    split; [exact Hh|]. split; [exact Ht|]. split; [exact Hne|].
    exists w'. split; [exact B1|]. split; [exact B3 | exact (B4 Hne)].
Defined.

(** A call of [setPIN] that resolved has left the database open and its
    record at "pin". *)
Lemma setPIN_resolved (pin : string) (w w' : World) :
  indexedDBService.setPIN pin w = (Resolved tt, w') ->
  exists c,
    db w' = Some c
    /\ contains (disk w') settings = true
    /\ settingsOf (disk w') !! "pin"
       = Some (mkSetting "pin" "pin" (hashUtils.hashString pin)).
Proof.
  unfold indexedDBService.setPIN, bind, indexedDBService.hashString, resolve.
  destruct (indexedDBService.openDatabase w) as [[c|e|] w1] eqn:Eo;
    try discriminate.
  pose proof (openDatabase_resolved c w w1 Eo) as Edb.
  unfold objectStore. destruct (contains (disk w1) settings); [|discriminate].
  on_promise fs name r d Ee; [discriminate|].
  intros E. injection E as <-. exists c. split; [exact Edb|].
  unfold put in Ee. destruct (settingStore (disk w1)) as [m|]; [|discriminate].
  destruct r. injection Ee as <-. unfold contains, settingsOf. simpl.
  split; [reflexivity | apply lookup_insert_eq].
Qed.

(** With the database open and the "pin" record there, [isPINSet]
    resolves with [true] as soon as its read succeeds. *)
Lemma isPINSet_reads_record (c : Connection) (record : Setting) (w : World) :
  db w = Some c ->
  contains (disk w) settings = true ->
  settingsOf (disk w) !! "pin" = Some record ->
  calm w = true ->
  fst (indexedDBService.isPINSet w) = Resolved true.
Proof.
  intros Edb Ec Er Hc.
  unfold indexedDBService.isPINSet, bind.
  rewrite (openDatabase_memo c w Edb). unfold objectStore. rewrite Ec.
  on_promise_calm Hc fs Hfs.
  unfold get, settingsOf in *.
  destruct (settingStore (disk w)) as [m|]; [|discriminate].
  now rewrite Er.
Qed.

(** C5. For every string [pin], whatever its format, [setPIN(pin)] with
    storage at work resolves and leaves [{ id: "pin", type: "pin", value:
    hash(pin) }] at the key "pin" of the settings, over any record that was
    there, and [isPINSet()] resolves with [true] right after it.  After
    any call of [setPIN] that resolved, that record is at "pin" and
    [isPINSet()] resolves with [true] if its read succeeds.  As long as
    there is no "pin" record and [setPIN] has not been called, whatever
    else has been called, [isPINSet()] resolves with [false] with storage
    at work, and never with [true]. *)
Theorem setPIN_upserts_and_isPINSet_follows :
  (forall (pin : string) (w : World),
      healthy w = true ->
      exists w',
        indexedDBService.setPIN pin w = (Resolved tt, w')
        /\ settingsOf (disk w')
           = <["pin" := mkSetting "pin" "pin" (hashUtils.hashString pin)]>
               (settingsOf (disk w))
        /\ fst (indexedDBService.isPINSet w') = Resolved true)
  /\ (forall (pin : string) (w w' : World),
         indexedDBService.setPIN pin w = (Resolved tt, w') ->
         settingsOf (disk w') !! "pin"
         = Some (mkSetting "pin" "pin" (hashUtils.hashString pin))
         /\ (calm w' = true ->
             fst (indexedDBService.isPINSet w') = Resolved true))
  /\ (forall (calls : list Call) (w : World),
         settingsOf (disk w) !! "pin" = None ->
         forallb (fun c => negb (isSetPIN c)) calls = true ->
         fst (indexedDBService.isPINSet (after_all calls w)) <> Resolved true
         /\ (healthy w = true ->
             fst (indexedDBService.isPINSet (after_all calls w))
             = Resolved false)).
Proof.
  split; [|split].
  - intros pin w H.
    destruct (setPIN_healthy pin w H) as (c & w' & E & _ & H' & _ & _ & Es).
    exists w'. split; [exact E|]. split; [exact Es|].
    destruct (isPINSet_healthy w' H') as (w2 & -> & _).
    simpl. rewrite Es, lookup_insert_eq. reflexivity.
  - intros pin w w' E.
    destruct (setPIN_resolved pin w w' E) as (c & Edb & Ec & Er).
    split; [exact Er|]. intros Hc.
    exact (isPINSet_reads_record c _ w' Edb Ec Er Hc).
  - intros calls w Hnone Hcalls.
    pose proof (after_all_no_pin calls w Hcalls Hnone) as Hnone'.
    split.
    + intros E. destruct (isPINSet_any (after_all calls w)) as [_ Hs].
      destruct (Hs E) as [record Er]. congruence.
    + intros H. pose proof (after_all_healthy calls w H) as H'.
      destruct (isPINSet_healthy _ H') as (w2 & -> & _).
      simpl. now rewrite Hnone'.
Qed.

Lemma setPIN_upserts_and_isPINSet_follows_witness :
  (healthy fresh = true
   /\ exists w',
       indexedDBService.setPIN "not six digits" fresh = (Resolved tt, w')
       /\ calm w' = true
       /\ fst (indexedDBService.isPINSet w') = Resolved true)
  /\ (settingsOf (disk fresh) !! "pin" = None
      /\ fst (indexedDBService.isPINSet
                (after_all [AddAuthor "A"; VerifyPIN "123456";
                            UpdatePIN "123456" "654321"; IsPINSet] fresh))
         = Resolved false).
Proof.
  destruct setPIN_upserts_and_isPINSet_follows as (A & B & C).
  assert (Hh : healthy fresh = true) by reflexivity.
  split.
  - split; [exact Hh|].
    destruct (A "not six digits" fresh Hh) as (w' & E & _ & _).
    destruct (B "not six digits" fresh w' E) as [_ Et].
    assert (Hc : calm w' = true).
    { injection E as <-. vm_compute. reflexivity. }
    exists w'. split; [exact E|]. split; [exact Hc | exact (Et Hc)].
  - split; [reflexivity|].
    destruct (C [AddAuthor "A"; VerifyPIN "123456";
                 UpdatePIN "123456" "654321"; IsPINSet] fresh) as [_ Cf];
      [reflexivity | reflexivity | exact (Cf Hh)].
Defined.

(** C10, as stated, fails: [verifyPIN] rejects when the database cannot be
    opened. *)
Lemma verifyPIN_rejects_when_database_cannot_open :
  fst (indexedDBService.verifyPIN "123456" unavailable)
  = Rejected (ErrString "IndexedDB error:").
Proof. reflexivity. Qed.

(** C10, amended. When the database opens and the read of the "pin"
    record fails, [verifyPIN(p)] resolves with [false] and the read error
    goes no further.  [verifyPIN] always settles; it rejects only with the
    rejection of [openDatabase], or with [NotFoundError] when the open
    database has no "settings" store. *)
Theorem verifyPIN_resolves_false_on_read_failure (p : string) (w : World) :
  (forall (c : Connection) (w1 : World) (name : string) (rest : list Fate),
      indexedDBService.openDatabase w = (Resolved c, w1) ->
      contains (disk w1) settings = true ->
      fates w1 = Fails name :: rest ->
      indexedDBService.verifyPIN p w = (Resolved false, set_fates rest w1))
  /\ fst (indexedDBService.verifyPIN p w) <> Pending
  /\ (forall e : Err,
         fst (indexedDBService.verifyPIN p w) = Rejected e ->
         fst (indexedDBService.openDatabase w) = Rejected e
         \/ (e = DOMException "NotFoundError"
             /\ contains (disk (snd (indexedDBService.openDatabase w))) settings
                = false)).
Proof.
  split; [|split].
  - intros c w1 name rest Eo Ec Ef.
    unfold indexedDBService.verifyPIN, bind, objectStore, promise, request, next_fate.
    rewrite Eo, Ec, Ef. reflexivity.
  - destruct (verifyPIN_any p w) as [_ Hv]. intros E. now rewrite E in Hv.
  - intros e E. destruct (verifyPIN_any p w) as [_ Hv]. now rewrite E in Hv.
Qed.

Lemma verifyPIN_resolves_false_on_read_failure_witness :
  indexedDBService.openDatabase flaky
  = (Resolved 0%nat, snd (indexedDBService.openDatabase flaky))
  /\ contains (disk (snd (indexedDBService.openDatabase flaky))) settings = true
  /\ fates (snd (indexedDBService.openDatabase flaky)) = [Fails "UnknownError"]
  /\ indexedDBService.verifyPIN "123456" flaky
     = (Resolved false, set_fates [] (snd (indexedDBService.openDatabase flaky))).
Proof.
  assert (Eo : indexedDBService.openDatabase flaky
               = (Resolved 0%nat, snd (indexedDBService.openDatabase flaky)))
    by reflexivity.
  assert (Ec : contains (disk (snd (indexedDBService.openDatabase flaky))) settings
               = true) by reflexivity.
  assert (Ef : fates (snd (indexedDBService.openDatabase flaky))
               = [Fails "UnknownError"]) by reflexivity.
  split; [exact Eo|]. split; [exact Ec|]. split; [exact Ef|].
  destruct (verifyPIN_resolves_false_on_read_failure "123456" flaky) as [A _].
  exact (A _ _ _ _ Eo Ec Ef).
Defined.

(* ===================================================================== *)
(** * The credential store: authors *)
(* ===================================================================== *)

(** C4. With storage at work: when a record with the same lowercase name
    exists, [addAuthor(name)] declines, that is, it resolves (with
    [undefined]) instead of rejecting, stores nothing and shows the alert
    "Author already exists: name"; when there is none, it stores
    [{ name: lowercase(name) }] after the other records, resolves with the
    key of the new record, and shows no alert. *)
Theorem addAuthor_declines_duplicates (name : string) (w : World) :
  healthy w = true ->
  ((exists a, a ∈ authorList w /\ sameAuthor name a) ->
   exists w',
     indexedDBService.addAuthor name w = (Resolved None, w')
     /\ authorList w' = authorList w
     /\ alerts w' = alerts w ++ ["Author already exists: " +:+ name])
  /\ ((forall a, a ∈ authorList w -> ~ sameAuthor name a) ->
      exists key w',
        indexedDBService.addAuthor name w = (Resolved (Some key), w')
        /\ authorList w' = authorList w ++ [mkAuthor key (JS.toLowerCase name)]
        /\ (forall a, a ∈ authorList w -> a_id a <> key)
        /\ alerts w' = alerts w).
Proof.
  intros H. destruct (addAuthor_healthy name w H) as (c & w' & _ & _ & _ & Hcase).
  split.
  - intros Hex. apply known_true in Hex. rewrite Hex in Hcase.
    exists w'. exact Hcase.
  - intros Hno. apply known_false in Hno. rewrite Hno in Hcase.
    destruct Hcase as (key & E & Ea & El & Hkey).
    exists key, w'. repeat split; try assumption.
    intros a Ha. rewrite Forall_forall in Hkey. specialize (Hkey a Ha). lia.
Qed.

Lemma addAuthor_declines_duplicates_witness :
  let w1 := after fresh (AddAuthor "PewDiePie") in
  (healthy w1 = true
   /\ (exists a, a ∈ authorList w1 /\ sameAuthor "pewdiepie" a)
   /\ exists w',
       indexedDBService.addAuthor "pewdiepie" w1 = (Resolved None, w')
       /\ authorList w' = [mkAuthor 1 "pewdiepie"]
       /\ alerts w' = ["Author already exists: pewdiepie"])
  /\ (healthy fresh = true
      /\ (forall a, a ∈ authorList fresh -> ~ sameAuthor "PewDiePie" a)
      /\ exists key w',
          indexedDBService.addAuthor "PewDiePie" fresh = (Resolved (Some key), w')
          /\ authorList w' = [mkAuthor key "pewdiepie"]).
Proof.
  intros w1.
  assert (H1 : healthy w1 = true) by reflexivity.
  assert (H0 : healthy fresh = true) by reflexivity.
  assert (Hex : exists a, a ∈ authorList w1 /\ sameAuthor "pewdiepie" a).
  { exists (mkAuthor 1 "pewdiepie"). split; [apply list_elem_of_here | reflexivity]. }
  assert (Hno : forall a, a ∈ authorList fresh -> ~ sameAuthor "PewDiePie" a).
  { intros a Ha. now apply elem_of_nil in Ha. }
  split.
  - split; [exact H1|]. split; [exact Hex|].
    destruct (addAuthor_declines_duplicates "pewdiepie" w1 H1) as [A _].
    destruct (A Hex) as (w' & E & Ea & El). exists w'.
    split; [exact E|]. split; [exact Ea | exact El].
  - split; [exact H0|]. split; [exact Hno|].
    destruct (addAuthor_declines_duplicates "PewDiePie" fresh H0) as [_ B].
    destruct (B Hno) as (key & w' & E & Ea & _). exists key, w'.
    split; [exact E | exact Ea].
Defined.

(** C3. With storage at work and no two records of the same lowercase
    name: after [addAuthor(n1)] and then [addAuthor(n2)], for [n1] and [n2]
    equal when lowercased, exactly one record is of that name; its name
    field is [lowercase(n1)] when the stored names are in lower case, as
    [addAuthor] stores them; and when no record was of that name before,
    it is the new record, after the others, so that an empty store then
    holds this one record.  And whatever storage does, no sequence of
    calls of the module, one after the other, makes two records of the
    same lowercase name, or stores a name that is not in lower case. *)
Theorem addAuthor_keeps_names_unique :
  (forall (n1 n2 : string) (w : World),
      healthy w = true ->
      unique_names (authorList w) ->
      JS.toLowerCase n1 = JS.toLowerCase n2 ->
      exists a,
        filter (fun a => JS.toLowerCase (a_name a) = JS.toLowerCase n1)
          (authorList (after_all [AddAuthor n1; AddAuthor n2] w)) = [a]
        /\ (lowercased (authorList w) -> a_name a = JS.toLowerCase n1)
        /\ ((forall b, b ∈ authorList w -> ~ sameAuthor n1 b) ->
            authorList (after_all [AddAuthor n1; AddAuthor n2] w)
            = authorList w ++ [a]))
  /\ (forall (calls : list Call) (w : World),
         unique_names (authorList w) ->
         unique_names (authorList (after_all calls w)))
  /\ (forall (calls : list Call) (w : World),
         lowercased (authorList w) ->
         lowercased (authorList (after_all calls w))).
Proof.
  split; [|split; [exact after_all_unique_names | exact after_all_lowercased]].
  intros n1 n2 w H U En. simpl.
  destruct (addAuthor_healthy n1 w H) as (c1 & w1 & _ & H1 & _ & Hcase1).
  destruct (addAuthor_healthy n2 w1 H1) as (c2 & w2 & _ & _ & _ & Hcase2).
  destruct (known n1 (authorList w)) eqn:K1.
  - destruct Hcase1 as (E1 & A1 & _). rewrite E1. simpl.
    rewrite A1, <- (known_lowercase n1 n2 _ En), K1 in Hcase2.
    destruct Hcase2 as (E2 & A2 & _). rewrite E2. simpl. rewrite A2.
    destruct (filter_known_unique n1 _ U K1) as (a & Ef).
    exists a. split; [exact Ef|]. split.
    + intros L. assert (Ha : a ∈ filter
        (fun a => JS.toLowerCase (a_name a) = JS.toLowerCase n1) (authorList w))
        by (rewrite Ef; apply list_elem_of_here).
      apply list_elem_of_filter in Ha as [Ea Ha].
      unfold lowercased in L. rewrite Forall_forall in L.
      now rewrite <- (L a Ha).
    + intros Hno. apply known_false in Hno. congruence.
  - destruct Hcase1 as (key & E1 & A1 & _). rewrite E1. simpl.
    assert (K2 : known n2 (authorList w1) = true).
    { rewrite A1, <- (known_lowercase n1 n2 _ En), known_app, known_stored.
      apply orb_true_r. }
    rewrite K2 in Hcase2. destruct Hcase2 as (E2 & A2 & _).
    rewrite E2. simpl. rewrite A2, A1.
    exists (mkAuthor key (JS.toLowerCase n1)). split; [|auto].
    rewrite filter_app, (filter_unknown n1 _ K1). simpl.
    rewrite filter_cons. simpl.
    destruct (decide _) as [_|NE]; [reflexivity|].
    exfalso. apply NE, toLowerCase_idempotent.
Qed.

Lemma addAuthor_keeps_names_unique_witness :
  (healthy fresh = true
   /\ unique_names (authorList fresh)
   /\ lowercased (authorList fresh)
   /\ JS.toLowerCase "PewDiePie" = JS.toLowerCase "pewdiepie"
   /\ authorList (after_all [AddAuthor "PewDiePie"; AddAuthor "pewdiepie"] fresh)
      = [mkAuthor 1 "pewdiepie"]
   /\ exists a,
       filter (fun a => JS.toLowerCase (a_name a) = JS.toLowerCase "PewDiePie")
         (authorList (after_all [AddAuthor "PewDiePie"; AddAuthor "pewdiepie"] fresh))
       = [a]
       /\ a_name a = JS.toLowerCase "PewDiePie")
  /\ unique_names
       (authorList
          (after_all [AddAuthor "A"; AddAuthor "a"; DeleteAuthor 1; AddAuthor "B";
                      ClearAuthors; AddAuthor "b"] fresh))
  /\ lowercased
       (authorList
          (after_all [AddAuthor "A"; AddAuthor "a"; DeleteAuthor 1; AddAuthor "B";
                      ClearAuthors; AddAuthor "b"] fresh)).
Proof.
  destruct addAuthor_keeps_names_unique as (A & B & C).
  assert (H0 : healthy fresh = true) by reflexivity.
  assert (U0 : unique_names (authorList fresh)) by constructor.
  assert (L0 : lowercased (authorList fresh)) by constructor.
  assert (En : JS.toLowerCase "PewDiePie" = JS.toLowerCase "pewdiepie") by reflexivity.
  split; [|split].
  - split; [exact H0|]. split; [exact U0|]. split; [exact L0|].
    split; [exact En|]. split; [reflexivity|].
    destruct (A "PewDiePie" "pewdiepie" fresh H0 U0 En) as (a & Ef & Ea & _).
    exists a. split; [exact Ef | exact (Ea L0)].
  - apply (B _ fresh U0).
  - apply (C _ fresh L0).
Defined.

(** In a store without duplicate keys a key names one record. *)
Lemma same_key_same_record (l : list Author) (a b : Author) :
  NoDup (map a_id l) -> a ∈ l -> b ∈ l -> a_id b = a_id a -> b = a.
Proof.
  induction l as [|x l IH]; intros Hnd Ha Hb E; [now apply elem_of_nil in Ha|].
  simpl in Hnd. apply NoDup_cons in Hnd as [Hnotin Hnd].
  assert (Hin : forall y, y ∈ l -> a_id y ∈ map a_id l).
  { intros y Hy. apply list_elem_of_In, in_map_iff. exists y.
    split; [reflexivity | now apply list_elem_of_In]. }
  apply elem_of_cons in Ha as [->|Ha], Hb as [->|Hb].
  - reflexivity.
  - exfalso. apply Hnotin. rewrite <- E. now apply Hin.
  - exfalso. apply Hnotin. rewrite E. now apply Hin.
  - now apply IH.
Qed.

(** C8. With storage at work [deleteAuthor(id)] resolves, and the records
    it leaves are those whose key is not [id]: for an [id] that is no key
    of the store the collection is as it was; for the key of a record of
    the store that record is gone, and it alone. *)
Theorem deleteAuthor_removes_that_key_only (id : Z) (w : World) :
  healthy w = true ->
  exists w',
    indexedDBService.deleteAuthor id w = (Resolved tt, w')
    /\ authorList w' = filter (fun a => a_id a ≠ id) (authorList w)
    /\ ((forall a, a ∈ authorList w -> a_id a <> id) ->
        authorList w' = authorList w)
    /\ (forall a, a ∈ authorList w -> a_id a = id ->
                  (a ∉ authorList w')
                  /\ length (authorList w) = S (length (authorList w'))
                  /\ forall b, b ∈ authorList w -> b <> a -> b ∈ authorList w').
Proof.
  intros H. destruct (deleteAuthor_healthy id w H) as (c & w' & E & _ & _ & Ea & _).
  exists w'. split; [exact E|]. split; [exact Ea|]. rewrite Ea. split.
  - apply filter_key_absent.
  - intros a Ha <-. pose proof (healthy_keys_NoDup w H) as Hnd.
    split; [|split].
    + intros Hin. apply list_elem_of_filter in Hin as [Hne _]. now apply Hne.
    + now apply filter_key_length.
    + intros b Hb Hne. apply list_elem_of_filter. split; [|exact Hb].
      intros Eid. apply Hne. now apply (same_key_same_record (authorList w)).
Qed.

Lemma deleteAuthor_removes_that_key_only_witness :
  let w1 := after fresh (AddAuthor "A") in
  healthy w1 = true
  /\ (forall a, a ∈ authorList w1 -> a_id a <> 7)
  /\ (exists w',
         indexedDBService.deleteAuthor 7 w1 = (Resolved tt, w')
         /\ authorList w' = authorList w1)
  /\ (exists w',
         indexedDBService.deleteAuthor 1 w1 = (Resolved tt, w')
         /\ authorList w' = []).
Proof.
  intros w1.
  assert (H1 : healthy w1 = true) by reflexivity.
  assert (Hno : forall a, a ∈ authorList w1 -> a_id a <> 7).
  { intros a Ha. apply list_elem_of_singleton in Ha. subst a. discriminate. }
  split; [exact H1|]. split; [exact Hno|]. split.
  - destruct (deleteAuthor_removes_that_key_only 7 w1 H1) as (w' & E & _ & Same & _).
    exists w'. split; [exact E | exact (Same Hno)].
  - destruct (deleteAuthor_removes_that_key_only 1 w1 H1) as (w' & E & Ea & _).
    exists w'. split; [exact E|]. rewrite Ea. reflexivity.
Defined.

(** The scenario of the specification: [addAuthor("A")] resolves with the
    key 1, and after [deleteAuthor(1)] [getAuthors()] resolves with an
    empty list. *)
Example scenario_add_delete_list :
  fst (indexedDBService.addAuthor "A" fresh) = Resolved (Some 1)
  /\ fst (indexedDBService.getAuthors
            (after_all [AddAuthor "A"; DeleteAuthor 1] fresh)) = Resolved [].
Proof. split; reflexivity. Qed.

(* ===================================================================== *)
(** * The background listener *)
(* ===================================================================== *)

(** C9. For a message whose action is "fetchBlockedAuthors" the listener
    keeps the channel open and calls [sendResponse] once: with
    [{ authors: A }], [A] being the records of the store, when
    [getAuthors] resolves, as it does with storage at work, and with
    [{ authors: [] }] when [getAuthors] rejects.  [getAuthors] always
    settles, so the request is never left unanswered. *)
Theorem listener_always_answers (message : background.Message) (w : World) :
  background.action message = "fetchBlockedAuthors" ->
  (exists response,
      fst (background.onMessage message w)
      = background.mkHandled true [response])
  /\ (forall A,
         fst (background.getAuthors w) = Resolved A ->
         A = authorList w
         /\ fst (background.onMessage message w)
            = background.mkHandled true [background.mkResponse A])
  /\ (forall e,
         fst (background.getAuthors w) = Rejected e ->
         fst (background.onMessage message w)
         = background.mkHandled true [background.mkResponse []])
  /\ (healthy w = true ->
      fst (background.onMessage message w)
      = background.mkHandled true [background.mkResponse (authorList w)]).
Proof.
  intros Ea. unfold background.onMessage. rewrite Ea. simpl.
  destruct (getAuthors_any w) as [_ Hg].
  change (indexedDBService.getAuthors w) with (background.getAuthors w) in Hg.
  split; [|split; [|split]].
  - destruct (background.getAuthors w) as [[A|e|] w']; simpl in *;
      [eauto | eauto | contradiction].
  - intros A E. destruct (background.getAuthors w) as [[A'|e|] w']; simpl in *;
      try discriminate.
    injection E as ->. auto.
  - intros e E. destruct (background.getAuthors w) as [[A'|e'|] w']; simpl in *;
      try discriminate. reflexivity.
  - intros H. destruct (getAuthors_healthy w H) as (w' & E & _).
    change (indexedDBService.getAuthors w) with (background.getAuthors w) in E.
    now rewrite E.
Qed.

Lemma listener_always_answers_witness :
  let message := background.mkMessage "fetchBlockedAuthors" in
  let w1 := after fresh (AddAuthor "A") in
  background.action message = "fetchBlockedAuthors"
  /\ fst (background.onMessage message w1)
     = background.mkHandled true [background.mkResponse [mkAuthor 1 "a"]]
  /\ fst (background.onMessage message unavailable)
     = background.mkHandled true [background.mkResponse []].
Proof.
  intros message w1.
  assert (Ea : background.action message = "fetchBlockedAuthors") by reflexivity.
  split; [exact Ea|]. split.
  - destruct (listener_always_answers message w1 Ea) as (_ & _ & _ & Hh).
    apply Hh. reflexivity.
  - destruct (listener_always_answers message unavailable Ea) as (_ & _ & Hr & _).
    apply (Hr (ErrString "IndexedDB error:")). reflexivity.
Defined.

(* ===================================================================== *)
(** * The database handle *)
(* ===================================================================== *)

(** One caller who awaits [openDatabase] at once is one call followed by
    the end of its request. *)
Lemma openDatabase_in_two_turns (caller : nat) (w : World) :
  EventLoop.world (EventLoop.run [EventLoop.Calls caller; EventLoop.RequestEnds] w)
  = snd (indexedDBService.openDatabase w)
  /\ EventLoop.received
       (EventLoop.run [EventLoop.Calls caller; EventLoop.RequestEnds] w)
     = [(caller, fst (indexedDBService.openDatabase w))].
Proof.
  unfold EventLoop.run, indexedDBService.openDatabase. simpl.
  destruct (db w) as [c|]; simpl; [auto|].
  destruct (indexedDBService.openDatabase_settles (open_called w)) as [r w'].
  auto.
Qed.

(** Once a caller has the handle, every later caller is given the same
    one and nothing is opened. *)
Lemma openDatabase_memoized (c : Connection) (w w1 : World) :
  indexedDBService.openDatabase w = (Resolved c, w1) ->
  indexedDBService.openDatabase w1 = (Resolved c, w1).
Proof. intros E. apply openDatabase_memo, (openDatabase_resolved c w w1 E). Qed.

(** Whenever [db] is empty, two callers in a row each place an open
    request of their own. *)
Lemma two_callers_place_two_requests (a b : nat) (w : World) :
  db w = None ->
  openCalls (EventLoop.world
               (EventLoop.run [EventLoop.Calls a; EventLoop.Calls b] w))
  = S (S (openCalls w))
  /\ EventLoop.inFlight
       (EventLoop.run [EventLoop.Calls a; EventLoop.Calls b] w) = [a; b].
Proof.
  intros E. unfold EventLoop.run. simpl. rewrite E. simpl. rewrite E. auto.
Qed.

(** C7 fails on the code: two callers that run [openDatabase()] before
    the first open request has ended both find [db] empty; [indexedDB.open]
    is called twice, two connections are opened, and the callers are
    handed different ones. *)
Theorem openDatabase_concurrent_callers_open_twice :
  openCalls (EventLoop.world
               (EventLoop.run
                  [EventLoop.Calls 1; EventLoop.Calls 2;
                   EventLoop.RequestEnds; EventLoop.RequestEnds] fresh)) = 2%nat
  /\ EventLoop.received
       (EventLoop.run
          [EventLoop.Calls 1; EventLoop.Calls 2;
           EventLoop.RequestEnds; EventLoop.RequestEnds] fresh)
     = [(1%nat, Resolved 0%nat); (2%nat, Resolved 1%nat)].
Proof. split; reflexivity. Qed.

(* ===================================================================== *)
(** * Further properties of the credential store *)
(* ===================================================================== *)

(** X1. When [openDatabase] resolves, [db] holds the connection it
    resolved with and the next call is given the same one without any
    request; no record has changed; a store that existed is kept as it
    was, key generator included; and when the database had to be opened,
    it is at version 2, with both stores if it was behind. *)
Theorem openDatabase_opens_in_place (c : Connection) (w w1 : World) :
  indexedDBService.openDatabase w = (Resolved c, w1) ->
  db w1 = Some c
  /\ indexedDBService.openDatabase w1 = (Resolved c, w1)
  /\ frame w w1
  /\ (forall st, authorStore (disk w) = Some st -> authorStore (disk w1) = Some st)
  /\ (forall m, settingStore (disk w) = Some m -> settingStore (disk w1) = Some m)
  /\ (db w = None ->
      version (disk w1) = 2
      /\ (version (disk w) < 2 -> has_stores (disk w1) = true)).
Proof.
  intros E. pose proof (openDatabase_resolved c w w1 E) as Edb.
  split; [exact Edb|]. split; [now apply openDatabase_memo|].
  split; [pose proof (openDatabase_frame w) as F; now rewrite E in F|].
  revert E. unfold indexedDBService.openDatabase.
  destruct (db w) as [c0|] eqn:Ew.
  - intros E. injection E as <- <-. repeat split; auto; discriminate.
  - unfold indexedDBService.openDatabase_settles, open_settles.
    destruct (next_fate_any (open_called w)) as [fs Ef].
    destruct (next_fate (open_called w)) as [[|name] w'] eqn:En;
      simpl in Ef; subst w'; [|discriminate].
    destruct w as [dbv [ver ast sst] fs0 conns oc al]. simpl.
    destruct (2 <? ver) eqn:Ev; [discriminate|]. simpl.
    destruct (Z.ltb_spec ver 2) as [Hlt|Hge]; intros E; injection E as <- <-.
    + unfold indexedDBService.onupgradeneeded, has_stores, contains. simpl.
      destruct ast, sst; simpl; repeat split; auto; discriminate.
    + simpl. repeat split; auto. lia.
Qed.

Lemma openDatabase_opens_in_place_witness :
  indexedDBService.openDatabase fresh
  = (Resolved 0%nat, snd (indexedDBService.openDatabase fresh))
  /\ version (disk (snd (indexedDBService.openDatabase fresh))) = 2
  /\ has_stores (disk (snd (indexedDBService.openDatabase fresh))) = true.
Proof.
  assert (E : indexedDBService.openDatabase fresh
              = (Resolved 0%nat, snd (indexedDBService.openDatabase fresh)))
    by reflexivity.
  split; [exact E|].
  destruct (openDatabase_opens_in_place _ _ _ E) as (_ & _ & _ & _ & _ & H).
  destruct (H eq_refl) as [Hv Hs]. split; [exact Hv|].
  apply Hs. reflexivity.
Defined.



(** ** What every call keeps *)

Section Keeps.

Import indexedDBService.

(** A property of the world that neither the fates, nor the database on
    disk, nor opening the database can change. *)
Variable P : World -> Prop.
Hypothesis P_fates : forall fs w, P w -> P (set_fates fs w).
Hypothesis P_disk : forall d w, P w -> P (set_disk d w).
Hypothesis P_open : keeps P openDatabase.

Lemma keeps_bind {A B} (m : Async A) (k : A -> Async B) :
  keeps P m -> (forall a, keeps P (k a)) -> keeps P (bind m k).
Proof.
  intros Hm Hk w Hw. unfold bind. specialize (Hm w Hw).
  destruct (m w) as [[a|e|] w']; simpl in *; [now apply Hk | exact Hm..].
Qed.

Lemma keeps_resolve {A} (a : A) : keeps P (resolve a).
Proof. intros w Hw. exact Hw. Qed.

Lemma keeps_reject {A} (e : Err) : keeps P (@reject A e).
Proof. intros w Hw. exact Hw. Qed.

Lemma keeps_objectStore (c : Connection) (name : StoreName) :
  keeps P (objectStore c name).
Proof.
  intros w Hw. unfold objectStore. now destruct (contains (disk w) name).
Qed.

Lemma keeps_promise {R A} (effect : Effect R)
    (onsuccess : R -> Async A) (onerror : Err -> Async A) :
  (forall r, keeps P (onsuccess r)) -> (forall e, keeps P (onerror e)) ->
  keeps P (promise effect onsuccess onerror).
Proof.
  intros Hs He w Hw.
  destruct (promise_cases effect onsuccess onerror w)
    as (fs & [(name & ->)|(r & d & _ & ->)]).
  - now apply He, P_fates.
  - now apply Hs, P_disk, P_fates.
Qed.

Lemma keeps_cursor (lowercasedName : string) (l : list Author) :
  keeps P (cursor lowercasedName l).
Proof.
  intros w Hw. destruct (cursor_any lowercasedName l w) as (fs & -> & _).
  now apply P_fates.
Qed.

Lemma keeps_storeCall {R A} (name : StoreName) (effect : Effect R) (g : R -> A) :
  keeps P (storeCall name effect g).
Proof.
  apply keeps_bind; [exact P_open|]. intros c.
  apply keeps_bind; [apply keeps_objectStore|]. intros _.
  apply keeps_promise; intros; [apply keeps_resolve | apply keeps_reject].
Qed.

Lemma keeps_verifyPIN (pin : string) : keeps P (verifyPIN pin).
Proof.
  apply keeps_bind; [exact P_open|]. intros c.
  apply keeps_bind; [apply keeps_objectStore|]. intros _.
  apply keeps_promise; [intros [record|] | intros e]; apply keeps_resolve.
Qed.

Lemma keeps_isPINSet : keeps P isPINSet.
Proof.
  apply keeps_bind; [exact P_open|]. intros c.
  apply keeps_bind; [apply keeps_objectStore|]. intros _.
  apply keeps_promise; [intros [record|] | intros e]; apply keeps_resolve.
Qed.

Lemma keeps_setPIN (pin : string) : keeps P (setPIN pin).
Proof. apply (keeps_storeCall settings). Qed.

Lemma keeps_updatePIN (oldPIN newPIN : string) : keeps P (updatePIN oldPIN newPIN).
Proof.
  intros w Hw. rewrite updatePIN_unfold.
  pose proof (keeps_verifyPIN oldPIN w Hw) as Hv.
  destruct (verifyPIN oldPIN w) as [[[]|e|] w1]; simpl in *; try exact Hv.
  now apply keeps_setPIN.
Qed.

Lemma keeps_authorExists (authorName : string) : keeps P (authorExists authorName).
Proof.
  apply keeps_bind; [exact P_open|]. intros c.
  apply keeps_bind; [apply keeps_objectStore|]. intros _.
  intros w Hw. now apply keeps_cursor.
Qed.

(** [addAuthor] keeps [P] if showing an alert does. *)
Lemma keeps_addAuthor (authorName : string) :
  (forall message, keeps P (alert message)) -> keeps P (addAuthor authorName).
Proof.
  intros P_alert w Hw. rewrite addAuthor_unfold.
  pose proof (keeps_authorExists authorName w Hw) as He.
  destruct (authorExists authorName w) as [[[]|e|] w1]; simpl in *; try exact He.
  - now apply P_alert.
  - now apply keeps_storeCall.
Qed.

(** Every call but [addAuthor] keeps [P]. *)
Lemma after_keeps (c : Call) (w : World) :
  (forall name, c <> AddAuthor name) -> P w -> P (after w c).
Proof.
  intros Hc Hw. destruct c as [name|id| | |pin|pin|oldPIN newPIN|]; simpl.
  - now contradiction (Hc name).
  - now apply (keeps_storeCall blockedAuthors (delete id) (fun r => r)).
  - now apply (keeps_storeCall blockedAuthors clear (fun _ => tt)).
  - now apply (keeps_storeCall blockedAuthors getAll (fun r => r)).
  - now apply keeps_setPIN.
  - now apply keeps_verifyPIN.
  - now apply keeps_updatePIN.
  - now apply keeps_isPINSet.
Qed.

End Keeps.

Lemma openDatabase_keeps_oneHandle : keeps oneHandle indexedDBService.openDatabase.
Proof.
  intros w Hw. unfold indexedDBService.openDatabase.
  destruct (db w) as [c|] eqn:Edb; [exact Hw|].
  destruct Hw as [[_ Hc]|[Hd _]]; [|congruence].
  unfold indexedDBService.openDatabase_settles, open_settles.
  destruct (next_fate_any (open_called w)) as [fs Ef].
  destruct (next_fate (open_called w)) as [[|name] w'] eqn:En;
    simpl in Ef; subst w'; simpl.
  - destruct (2 <? version (disk w)); simpl.
    + left. auto.
    + right. rewrite Hc.
      destruct (version (disk w) <? 2); simpl; [|auto].
      split; [reflexivity|].
      unfold indexedDBService.onupgradeneeded, contains. simpl.
      destruct (authorStore (disk w)), (settingStore (disk w)); reflexivity.
  - left. auto.
Qed.

(** X3. Callers that wait for one another share one connection: starting
    with no connection and [db] empty, after any calls of the module made
    one after the other, whatever storage does, at most one connection
    has been opened, and [db] holds it. *)
Theorem sequential_callers_share_one_connection (calls : list Call) (w : World) :
  oneHandle w ->
  oneHandle (after_all calls w)
  /\ (connections (after_all calls w) <= 1)%nat.
Proof.
  intros Hw.
  assert (H : oneHandle (after_all calls w)).
  { revert w Hw. induction calls as [|c calls IH]; intros w Hw; [exact Hw|].
    apply IH.
    assert (Hf : forall fs w, oneHandle w -> oneHandle (set_fates fs w)) by auto.
    assert (Hd : forall d w, oneHandle w -> oneHandle (set_disk d w)) by auto.
    destruct c as [name| | | | | | |];
      try (apply (after_keeps oneHandle Hf Hd openDatabase_keeps_oneHandle);
           [discriminate | exact Hw]).
    apply (keeps_addAuthor oneHandle Hf Hd openDatabase_keeps_oneHandle);
      [|exact Hw].
    intros message w0 H0. exact H0. }
  split; [exact H|]. destruct H as [[_ ->]|[_ ->]]; lia.
Qed.

Lemma sequential_callers_share_one_connection_witness :
  oneHandle fresh
  /\ (connections
        (after_all [IsPINSet; SetPIN "123456"; VerifyPIN "123456";
                    AddAuthor "A"; GetAuthors] fresh) <= 1)%nat.
Proof.
  assert (H : oneHandle fresh) by (left; split; reflexivity).
  split; [exact H|].
  apply (sequential_callers_share_one_connection _ fresh H).
Defined.

(** What the calls that do not write to a store leave of it, whatever
    storage does. *)
Lemma after_same_settings (c : Call) (w : World) :
  writesSettings c = false ->
  settingsOf (disk (after w c)) = settingsOf (disk w).
Proof.
  intros Hc. destruct c as [name|id| | |pin|pin|oldPIN newPIN|];
    simpl in *; try discriminate.
  - now destruct (addAuthor_any name w) as [-> _].
  - now destruct (deleteAuthor_any id w) as [_ ->].
  - now destruct (clearAuthors_any w) as [_ ->].
  - now destruct (getAuthors_any w) as [(_ & -> & _) _].
  - now destruct (verifyPIN_any pin w) as [(_ & -> & _) _].
  - now destruct (isPINSet_any w) as [(_ & -> & _) _].
Qed.

Lemma after_same_authors (c : Call) (w : World) :
  writesAuthors c = false -> authorList (after w c) = authorList w.
Proof.
  intros Hc. destruct c as [name|id| | |pin|pin|oldPIN newPIN|];
    simpl in *; try discriminate.
  - now destruct (getAuthors_any w) as [(-> & _) _].
  - now destruct (setPIN_any pin w) as (-> & _).
  - now destruct (verifyPIN_any pin w) as [(-> & _) _].
  - now destruct (updatePIN_any oldPIN newPIN w) as [-> _].
  - now destruct (isPINSet_any w) as [(-> & _) _].
Qed.

Lemma after_all_same_authors (calls : list Call) (w : World) :
  forallb (fun c => negb (writesAuthors c)) calls = true ->
  authorList (after_all calls w) = authorList w.
Proof.
  revert w. induction calls as [|c calls IH]; intros w Hc; [reflexivity|].
  simpl in Hc. apply andb_true_iff in Hc as [Hc Hcs].
  simpl. rewrite (IH _ Hcs). apply after_same_authors. now apply negb_true_iff.
Qed.

(** X4. The two stores are independent, whatever storage does: a call
    other than [setPIN] and [updatePIN] leaves the settings, and the PIN
    with them, as they were; a call other than [addAuthor], [deleteAuthor]
    and [clearAuthors] leaves the authors as they were; and no call but
    [addAuthor] shows an alert. *)
Theorem stores_are_independent (c : Call) (w : World) :
  (writesSettings c = false ->
   settingsOf (disk (after w c)) = settingsOf (disk w))
  /\ (writesAuthors c = false -> authorList (after w c) = authorList w)
  /\ ((forall name, c <> AddAuthor name) -> alerts (after w c) = alerts w).
Proof.
  split; [apply after_same_settings|]. split; [apply after_same_authors|].
  intros Hc.
  apply (after_keeps (fun w' => alerts w' = alerts w)); auto.
  intros w0 H0. rewrite <- H0.
  now destruct (openDatabase_frame w0) as (_ & _ & ->).
Qed.

Lemma stores_are_independent_witness :
  writesSettings ClearAuthors = false
  /\ settingsOf (disk (after pinned ClearAuthors)) = settingsOf (disk pinned)
  /\ writesAuthors (SetPIN "654321") = false
  /\ authorList (after (after fresh (AddAuthor "A")) (SetPIN "654321"))
     = authorList (after fresh (AddAuthor "A"))
  /\ alerts (after pinned (VerifyPIN "000000")) = alerts pinned.
Proof.
  assert (H1 : writesSettings ClearAuthors = false) by reflexivity.
  assert (H2 : writesAuthors (SetPIN "654321") = false) by reflexivity.
  split; [exact H1|]. split.
  { destruct (stores_are_independent ClearAuthors pinned) as (A & _). exact (A H1). }
  split; [exact H2|]. split.
  { destruct (stores_are_independent (SetPIN "654321") (after fresh (AddAuthor "A")))
      as (_ & B & _). exact (B H2). }
  destruct (stores_are_independent (VerifyPIN "000000") pinned) as (_ & _ & C).
  apply C. discriminate.
Defined.

(** ** Lists, additions and deletions *)

Lemma known_nil (name : string) : known name [] = false.
Proof. reflexivity. Qed.

(** X5. With storage at work [clearAuthors] resolves, [getAuthors] after
    it resolves with an empty list, the settings are as they were, and
    any name, blocked before or not, is then added and not declined.
    Whatever storage does, when [clearAuthors] resolves no author is
    left, and when it does not the authors are as they were. *)
Theorem clearAuthors_empties_the_list (w : World) :
  (healthy w = true ->
   exists w1,
     indexedDBService.clearAuthors w = (Resolved tt, w1)
     /\ fst (indexedDBService.getAuthors w1) = Resolved []
     /\ settingsOf (disk w1) = settingsOf (disk w)
     /\ forall name, exists key,
         fst (indexedDBService.addAuthor name w1) = Resolved (Some key))
  /\ (fst (indexedDBService.clearAuthors w) = Resolved tt ->
      authorList (snd (indexedDBService.clearAuthors w)) = [])
  /\ (fst (indexedDBService.clearAuthors w) <> Resolved tt ->
      authorList (snd (indexedDBService.clearAuthors w)) = authorList w).
Proof.
  split; [|split].
  - intros H.
    destruct (clearAuthors_healthy w H) as (c & w1 & E & _ & H1 & Ea & Es & _).
    exists w1. split; [exact E|]. split; [|split; [exact Es|]].
    + destruct (getAuthors_healthy w1 H1) as (w2 & -> & _). simpl. now rewrite Ea.
    + intros name.
      destruct (addAuthor_healthy name w1 H1) as (c2 & w2 & _ & _ & _ & Hcase).
      rewrite Ea, known_nil in Hcase. destruct Hcase as (key & -> & _).
      now exists key.
  - destruct (storeCall_any blockedAuthors clear (fun _ => tt) w)
      as [[_ [e Ee]]|(w1 & fs & [] & d' & _ & Ee & E)].
    + assert (Ee' : fst (indexedDBService.clearAuthors w) = Rejected e) by exact Ee.
      rewrite Ee'. discriminate.
    + assert (E' : indexedDBService.clearAuthors w = _) by exact E.
      rewrite E'. intros _. unfold authorList. simpl.
      now destruct (clear_effect _ _ Ee) as (-> & _).
  - destruct (storeCall_any blockedAuthors clear (fun _ => tt) w)
      as [[(Fa & _) _]|(w1 & fs & [] & d' & _ & Ee & E)].
    + intros _. exact Fa.
    + assert (E' : indexedDBService.clearAuthors w = _) by exact E.
      rewrite E'. intros Hn. now contradiction Hn.
Qed.

Lemma clearAuthors_empties_the_list_witness :
  let w := after_all [SetPIN "123456"; AddAuthor "A"; AddAuthor "B"] fresh in
  healthy w = true
  /\ exists w1,
      indexedDBService.clearAuthors w = (Resolved tt, w1)
      /\ fst (indexedDBService.getAuthors w1) = Resolved []
      /\ storedDigest w1 = storedDigest w
      /\ fst (indexedDBService.addAuthor "a" w1) = Resolved (Some 3).
Proof.
  intros w. assert (H : healthy w = true) by (vm_compute; reflexivity).
  split; [exact H|].
  destruct (clearAuthors_empties_the_list w) as (A & _).
  destruct (A H) as (w1 & E & Eg & Es & _).
  exists w1. split; [exact E|]. split; [exact Eg|]. split.
  - unfold storedDigest. now rewrite Es.
  - injection E as <-. vm_compute. reflexivity.
Defined.

Lemma filter_key_of_last (key : Z) (name : string) (l : list Author) :
  Forall (fun a => a_id a < key) l ->
  filter (fun a => a_id a ≠ key) (l ++ [mkAuthor key name]) = l.
Proof.
  intros Hl. rewrite filter_app, filter_key_absent.
  - rewrite filter_cons. simpl.
    destruct (decide (key ≠ key)) as [NE|_]; [now contradiction NE|].
    apply app_nil_r.
  - intros a Ha. rewrite Forall_forall in Hl. specialize (Hl a Ha). lia.
Qed.

(** X6. With storage at work, adding an author that is not in the list
    and deleting it by the key [addAuthor] resolved with is a round trip:
    [getAuthors] in between resolves with the old list followed by
    [{ id: key, name: lowercase(name) }], and after [deleteAuthor(key)]
    the list is the old one again. *)
Theorem addAuthor_deleteAuthor_round_trip (name : string) (w : World) :
  healthy w = true ->
  known name (authorList w) = false ->
  exists key w1 w2,
    indexedDBService.addAuthor name w = (Resolved (Some key), w1)
    /\ fst (indexedDBService.getAuthors w1)
       = Resolved (authorList w ++ [mkAuthor key (JS.toLowerCase name)])
    /\ indexedDBService.deleteAuthor key w1 = (Resolved tt, w2)
    /\ fst (indexedDBService.getAuthors w2) = Resolved (authorList w).
Proof.
  intros H Hk.
  destruct (addAuthor_healthy name w H) as (c1 & w1 & _ & H1 & _ & Hcase).
  rewrite Hk in Hcase. destruct Hcase as (key & E1 & Ea1 & _ & Hkey).
  destruct (deleteAuthor_healthy key w1 H1) as (c2 & w2 & E2 & _ & H2 & Ea2 & _).
  exists key, w1, w2. split; [exact E1|]. split; [|split; [exact E2|]].
  - destruct (getAuthors_healthy w1 H1) as (w3 & -> & _). simpl. now rewrite Ea1.
  - destruct (getAuthors_healthy w2 H2) as (w3 & -> & _). simpl.
    rewrite Ea2, Ea1. f_equal. now apply filter_key_of_last.
Qed.

Lemma addAuthor_deleteAuthor_round_trip_witness :
  let w := after fresh (AddAuthor "A") in
  healthy w = true
  /\ known "PewDiePie" (authorList w) = false
  /\ exists key w1 w2,
      indexedDBService.addAuthor "PewDiePie" w = (Resolved (Some key), w1)
      /\ fst (indexedDBService.getAuthors w1)
         = Resolved [mkAuthor 1 "a"; mkAuthor key "pewdiepie"]
      /\ indexedDBService.deleteAuthor key w1 = (Resolved tt, w2)
      /\ fst (indexedDBService.getAuthors w2) = Resolved [mkAuthor 1 "a"].
Proof.
  intros w.
  assert (H : healthy w = true) by reflexivity.
  assert (Hk : known "PewDiePie" (authorList w) = false) by reflexivity.
  split; [exact H|]. split; [exact Hk|].
  destruct (addAuthor_deleteAuthor_round_trip "PewDiePie" w H Hk)
    as (key & w1 & w2 & E1 & Eg1 & E2 & Eg2).
  exists key, w1, w2. split; [exact E1|]. split; [exact Eg1|].
  split; [exact E2 | exact Eg2].
Defined.

(** X7. The cursor of [authorExists] has no [onerror]: when the database
    is open and the cursor's request fails, the promise of [authorExists]
    is never settled, and [addAuthor], which awaits it, is never settled
    either; it stores nothing and shows no alert.  In general, whatever
    storage does, [addAuthor] that stays pending has stored nothing and
    shown nothing. *)
Theorem addAuthor_hangs_when_cursor_fails (authorName : string) (w : World) :
  (forall c w1 name rest,
      indexedDBService.openDatabase w = (Resolved c, w1) ->
      contains (disk w1) blockedAuthors = true ->
      fates w1 = Fails name :: rest ->
      indexedDBService.authorExists authorName w = (Pending, set_fates rest w1)
      /\ indexedDBService.addAuthor authorName w = (Pending, set_fates rest w1))
  /\ (fst (indexedDBService.addAuthor authorName w) = Pending ->
      frame w (snd (indexedDBService.addAuthor authorName w))).
Proof.
  split.
  - intros c w1 name rest Eo Ec Ef.
    assert (Ee : indexedDBService.authorExists authorName w
                 = (Pending, set_fates rest w1)).
    { unfold indexedDBService.authorExists, bind, objectStore.
      rewrite Eo, Ec.
      destruct (authorsOf (disk w1)); simpl; unfold next_fate; now rewrite Ef. }
    split; [exact Ee|]. now rewrite addAuthor_unfold, Ee.
  - destruct (authorExists_any authorName w) as [F _].
    rewrite addAuthor_unfold.
    destruct (indexedDBService.authorExists authorName w) as [[[]|e|] w1];
      simpl in *; try discriminate; [|auto].
    destruct (storeCall_any blockedAuthors (add (JS.toLowerCase authorName)) Some w1)
      as [[_ [e ->]]|(w2 & fs & key & d' & _ & _ & ->)]; discriminate.
Qed.

Lemma addAuthor_hangs_when_cursor_fails_witness :
  indexedDBService.openDatabase flaky
  = (Resolved 0%nat, snd (indexedDBService.openDatabase flaky))
  /\ indexedDBService.addAuthor "A" flaky
     = (Pending, set_fates [] (snd (indexedDBService.openDatabase flaky)))
  /\ authorList (snd (indexedDBService.addAuthor "A" flaky)) = [].
Proof.
  assert (Eo : indexedDBService.openDatabase flaky
               = (Resolved 0%nat, snd (indexedDBService.openDatabase flaky)))
    by reflexivity.
  destruct (addAuthor_hangs_when_cursor_fails "A" flaky) as [A _].
  destruct (A _ _ "UnknownError" [] Eo eq_refl eq_refl) as [_ Ea].
  split; [exact Eo|]. split; [exact Ea|]. rewrite Ea. reflexivity.
Defined.

(* ===================================================================== *)
(** * Further properties of the PIN authenticator *)
(* ===================================================================== *)

(** X8. [isPINSet] treats a failed read as "no PIN": when the database is
    open and the read of the "pin" record fails, it resolves with [false]
    whether or not the record is there, and the popup then starts in the
    state "setPIN".  With storage at work the popup starts in "login" if
    the "pin" record is there and in "setPIN" if not; it never starts in
    another state. *)
Theorem isPINSet_false_on_read_failure (w : World) :
  (forall c w1 name rest,
      indexedDBService.openDatabase w = (Resolved c, w1) ->
      contains (disk w1) settings = true ->
      fates w1 = Fails name :: rest ->
      indexedDBService.isPINSet w = (Resolved false, set_fates rest w1)
      /\ popup.initialState w = (Resolved "setPIN", set_fates rest w1))
  /\ (healthy w = true ->
      fst (popup.initialState w)
      = Resolved (if bool_decide (is_Some (settingsOf (disk w) !! "pin"))
                  then "login" else "setPIN"))
  /\ (forall state,
         fst (popup.initialState w) = Resolved state ->
         state = "login" \/ state = "setPIN").
Proof.
  split; [|split].
  - intros c w1 name rest Eo Ec Ef.
    assert (E : indexedDBService.isPINSet w = (Resolved false, set_fates rest w1)).
    { unfold indexedDBService.isPINSet, bind, objectStore, promise, request,
        next_fate. now rewrite Eo, Ec, Ef. }
    split; [exact E|]. unfold popup.initialState, bind. now rewrite E.
  - intros H. destruct (isPINSet_healthy w H) as (w' & E & _).
    unfold popup.initialState, bind. rewrite E. reflexivity.
  - intros state. unfold popup.initialState, bind.
    destruct (indexedDBService.isPINSet w) as [[[]|e|] w']; simpl;
      intros E; try discriminate; injection E as <-; auto.
Qed.

Lemma isPINSet_false_on_read_failure_witness :
  indexedDBService.openDatabase unreadable = (Resolved 0%nat, unreadable)
  /\ is_Some (settingsOf (disk unreadable) !! "pin")
  /\ indexedDBService.isPINSet unreadable = (Resolved false, set_fates [] unreadable)
  /\ fst (popup.initialState unreadable) = Resolved "setPIN"
  /\ healthy pinned = true
  /\ fst (popup.initialState pinned) = Resolved "login".
Proof.
  assert (Eo : indexedDBService.openDatabase unreadable
               = (Resolved 0%nat, unreadable)) by (vm_compute; reflexivity).
  assert (Ec : contains (disk unreadable) settings = true)
    by (vm_compute; reflexivity).
  assert (Ef : fates unreadable = [Fails "UnknownError"])
    by (vm_compute; reflexivity).
  assert (Hh : healthy pinned = true) by (vm_compute; reflexivity).
  destruct (isPINSet_false_on_read_failure unreadable) as (A & _).
  destruct (A _ _ "UnknownError" [] Eo Ec Ef) as [E1 E2].
  destruct (isPINSet_false_on_read_failure pinned) as (_ & B & _).
  split; [exact Eo|]. split; [vm_compute; eauto|]. split; [exact E1|].
  split; [rewrite E2; reflexivity|]. split; [exact Hh|].
  rewrite (B Hh). vm_compute. reflexivity.
Defined.

(** X9. With storage at work [setPIN] and [verifyPIN] are a round trip:
    after [setPIN(p)], [verifyPIN(q)] resolves with [true] exactly for the
    [q] whose digest is that of [p]; and of two calls of [setPIN] the
    second alone counts: the settings are those a single [setPIN(p2)]
    leaves. *)
Theorem setPIN_verifyPIN_round_trip (p : string) (w : World) :
  healthy w = true ->
  exists w1,
    indexedDBService.setPIN p w = (Resolved tt, w1)
    /\ (forall q,
           fst (indexedDBService.verifyPIN q w1)
           = Resolved (bool_decide (hashUtils.hashString q = hashUtils.hashString p)))
    /\ fst (indexedDBService.verifyPIN p w1) = Resolved true
    /\ (forall p2, exists w2 w2',
           indexedDBService.setPIN p2 w1 = (Resolved tt, w2)
           /\ indexedDBService.setPIN p2 w = (Resolved tt, w2')
           /\ settingsOf (disk w2) = settingsOf (disk w2')).
Proof.
  intros H.
  destruct (setPIN_healthy p w H) as (c & w1 & E1 & _ & H1 & _ & _ & Es1).
  pose proof (storedDigest_after_put _ _ _ Es1) as Ed.
  assert (Hv : forall q,
             fst (indexedDBService.verifyPIN q w1)
             = Resolved (bool_decide (hashUtils.hashString q = hashUtils.hashString p))).
  { intros q. destruct (verifyPIN_healthy q w1 H1) as (c2 & w2 & -> & _).
    cbn [fst]. rewrite Ed. f_equal. apply bool_decide_ext. split; congruence. }
  exists w1. split; [exact E1|]. split; [exact Hv|]. split.
  - rewrite Hv. now rewrite bool_decide_eq_true_2.
  - intros p2.
    destruct (setPIN_healthy p2 w1 H1) as (c2 & w2 & E2 & _ & _ & _ & _ & Es2).
    destruct (setPIN_healthy p2 w H) as (c3 & w3 & E3 & _ & _ & _ & _ & Es3).
    exists w2, w3. split; [exact E2|]. split; [exact E3|].
    rewrite Es2, Es3, Es1. apply insert_insert_eq.
Qed.

Lemma setPIN_verifyPIN_round_trip_witness :
  healthy fresh = true
  /\ exists w1,
      indexedDBService.setPIN "123456" fresh = (Resolved tt, w1)
      /\ fst (indexedDBService.verifyPIN "123456" w1) = Resolved true
      /\ fst (indexedDBService.verifyPIN "12345" w1) = Resolved false.
Proof.
  assert (H : healthy fresh = true) by reflexivity.
  split; [exact H|].
  destruct (setPIN_verifyPIN_round_trip "123456" fresh H) as (w1 & E & Hv & Ht & _).
  exists w1. split; [exact E|]. split; [exact Ht|].
  rewrite Hv. vm_compute. reflexivity.
Defined.

(** X10. When the read of the "pin" record fails, [updatePIN] rejects
    with "Old PIN is incorrect.", whatever the old PIN given, the correct
    one included, and writes nothing.  [updatePIN] always settles, and
    when it does not resolve the settings are as they were. *)
Theorem updatePIN_blames_the_old_PIN_on_read_failure
    (oldPIN newPIN : string) (w : World) :
  (forall c w1 name rest,
      indexedDBService.openDatabase w = (Resolved c, w1) ->
      contains (disk w1) settings = true ->
      fates w1 = Fails name :: rest ->
      indexedDBService.updatePIN oldPIN newPIN w
      = (Rejected (ErrError "Old PIN is incorrect."), set_fates rest w1))
  /\ fst (indexedDBService.updatePIN oldPIN newPIN w) <> Pending
  /\ (fst (indexedDBService.updatePIN oldPIN newPIN w) <> Resolved tt ->
      settingsOf (disk (snd (indexedDBService.updatePIN oldPIN newPIN w)))
      = settingsOf (disk w)).
Proof.
  split; [|split].
  - intros c w1 name rest Eo Ec Ef. rewrite updatePIN_unfold.
    assert (E : indexedDBService.verifyPIN oldPIN w
                = (Resolved false, set_fates rest w1)).
    { unfold indexedDBService.verifyPIN, bind, objectStore, promise, request,
        next_fate. now rewrite Eo, Ec, Ef. }
    now rewrite E.
  - destruct (verifyPIN_any oldPIN w) as [_ Hv]. rewrite updatePIN_unfold.
    destruct (indexedDBService.verifyPIN oldPIN w) as [[[]|e|] w1]; simpl in *;
      try discriminate; [|contradiction].
    destruct (setPIN_any newPIN w1) as (_ & _ & Hs).
    intros E. now rewrite E in Hs.
  - destruct (verifyPIN_any oldPIN w) as [(_ & Fs & _) _]. rewrite updatePIN_unfold.
    destruct (indexedDBService.verifyPIN oldPIN w) as [[[]|e|] w1]; simpl in *;
      try (intros _; exact Fs).
    destruct (setPIN_any newPIN w1) as (_ & _ & Hs).
    destruct (indexedDBService.setPIN newPIN w1) as [[[]|e|] w2]; simpl in *.
    + intros Hn. now contradiction Hn.
    + intros _. congruence.
    + contradiction.
Qed.

Lemma updatePIN_blames_the_old_PIN_on_read_failure_witness :
  indexedDBService.openDatabase unreadable = (Resolved 0%nat, unreadable)
  /\ storedDigest unreadable = Some (hashUtils.hashString "123456")
  /\ indexedDBService.updatePIN "123456" "654321" unreadable
     = (Rejected (ErrError "Old PIN is incorrect."), set_fates [] unreadable).
Proof.
  assert (Eo : indexedDBService.openDatabase unreadable
               = (Resolved 0%nat, unreadable)) by (vm_compute; reflexivity).
  assert (Ec : contains (disk unreadable) settings = true)
    by (vm_compute; reflexivity).
  assert (Ef : fates unreadable = [Fails "UnknownError"])
    by (vm_compute; reflexivity).
  split; [exact Eo|]. split; [vm_compute; reflexivity|].
  destruct (updatePIN_blames_the_old_PIN_on_read_failure "123456" "654321" unreadable)
    as (A & _).
  exact (A _ _ "UnknownError" [] Eo Ec Ef).
Defined.

(** ** What the settings hold *)

Lemma holdsDigestOf_more (pins pins' : list string) (m : gmap string Setting) :
  (forall p, p ∈ pins -> p ∈ pins') ->
  holdsDigestOf pins m -> holdsDigestOf pins' m.
Proof.
  intros Hsub [->|(pin & Hin & ->)]; [now left|]. right. exists pin. auto.
Qed.

Lemma holdsDigestOf_put (pins : list string) (pin : string)
    (m : gmap string Setting) :
  holdsDigestOf pins m ->
  holdsDigestOf (pins ++ [pin])
    (<["pin" := mkSetting "pin" "pin" (hashUtils.hashString pin)]> m).
Proof.
  intros H. right. exists pin. split; [apply elem_of_app; right; apply list_elem_of_here|].
  destruct H as [->|(pin0 & _ & ->)].
  - apply insert_empty.
  - rewrite <- !insert_empty. apply insert_insert_eq.
Qed.

Lemma after_holdsDigestOf (c : Call) (pins : list string) (w : World) :
  holdsDigestOf pins (settingsOf (disk w)) ->
  holdsDigestOf (pins ++ pinsGiven [c]) (settingsOf (disk (after w c))).
Proof.
  intros H.
  assert (Hmore : forall l, holdsDigestOf (pins ++ l) (settingsOf (disk w))).
  { intros l. eapply holdsDigestOf_more; [|exact H].
    intros p Hp. apply elem_of_app. now left. }
  destruct (writesSettings c) eqn:Hc.
  - destruct c as [name|id| | |pin|pin|oldPIN newPIN|]; try discriminate; simpl.
    + destruct (setPIN_any pin w) as (_ & _ & Hs).
      destruct (indexedDBService.setPIN pin w) as [[[]|e|] w1]; simpl in *;
        [|rewrite Hs; apply Hmore|contradiction].
      rewrite Hs. now apply holdsDigestOf_put.
    + destruct (verifyPIN_any oldPIN w) as [(_ & Fs & _) _].
      rewrite updatePIN_unfold.
      destruct (indexedDBService.verifyPIN oldPIN w) as [[[]|e|] w1]; simpl in *;
        try (rewrite Fs; apply Hmore).
      destruct (setPIN_any newPIN w1) as (_ & _ & Hs).
      destruct (indexedDBService.setPIN newPIN w1) as [[[]|e|] w2]; simpl in *;
        [|rewrite Hs, Fs; apply Hmore|contradiction].
      rewrite Hs, Fs. now apply holdsDigestOf_put.
  - rewrite (after_same_settings c w Hc). apply Hmore.
Qed.

Lemma pinsGiven_cons (c : Call) (calls : list Call) :
  pinsGiven (c :: calls) = pinsGiven [c] ++ pinsGiven calls.
Proof. unfold pinsGiven. simpl. now rewrite app_nil_r. Qed.

Lemma after_all_holdsDigestOf (calls : list Call) (pins : list string) (w : World) :
  holdsDigestOf pins (settingsOf (disk w)) ->
  holdsDigestOf (pins ++ pinsGiven calls) (settingsOf (disk (after_all calls w))).
Proof.
  revert pins w. induction calls as [|c calls IH]; intros pins w H.
  - simpl. now rewrite app_nil_r.
  - rewrite pinsGiven_cons, app_assoc. apply IH. now apply after_holdsDigestOf.
Qed.

Lemma hashString_length (input : string) :
  String.length (hashUtils.hashString input) = 64%nat.
Proof.
  unfold hashUtils.hashString.
  rewrite join_rendering by apply digest_range.
  now rewrite lowercaseHex_length, digest_length.
Qed.

(** X11. The settings never hold a PIN, only a digest: starting with
    settings that hold nothing, after any calls of the module, whatever
    storage does, they hold nothing or the one record
    [{ id: "pin", type: "pin", value: hash(pin) }] at "pin", for a [pin]
    given to [setPIN] or as the new PIN to [updatePIN]; the stored digest
    is 64 characters long. *)
Theorem settings_hold_only_a_digest (calls : list Call) (w : World) :
  settingsOf (disk w) = ∅ ->
  holdsDigestOf (pinsGiven calls) (settingsOf (disk (after_all calls w)))
  /\ (forall digest,
         storedDigest (after_all calls w) = Some digest ->
         String.length digest = 64%nat
         /\ exists pin, pin ∈ pinsGiven calls /\ digest = hashUtils.hashString pin).
Proof.
  intros Hw.
  assert (H : holdsDigestOf (pinsGiven calls)
                (settingsOf (disk (after_all calls w)))).
  { apply (after_all_holdsDigestOf calls [] w). left. exact Hw. }
  split; [exact H|]. intros digest. unfold storedDigest.
  destruct H as [->|(pin & Hin & ->)].
  - rewrite lookup_empty. discriminate.
  - rewrite lookup_singleton_eq. intros E. injection E as <-.
    split; [apply hashString_length | eauto].
Qed.

Lemma settings_hold_only_a_digest_witness :
  settingsOf (disk fresh) = ∅
  /\ holdsDigestOf ["123456"; "654321"; "000000"]
       (settingsOf
          (disk (after_all [SetPIN "123456"; UpdatePIN "123456" "654321";
                            UpdatePIN "111111" "000000"] fresh))).
Proof.
  assert (H : settingsOf (disk fresh) = ∅) by reflexivity.
  split; [exact H|].
  exact (proj1 (settings_hold_only_a_digest
                  [SetPIN "123456"; UpdatePIN "123456" "654321";
                   UpdatePIN "111111" "000000"] fresh H)).
Defined.

(** ** Reading a digest back *)

Lemma hexByte_table :
  forallb
    (fun n => bool_decide (parseHex (hexByte (Z.of_nat n)) = [Z.of_nat n]))
    (seq 0 256) = true.
Proof. vm_compute. reflexivity. Qed.

Lemma parseHex_hexByte (b : Z) (rest : string) :
  0 <= b < 256 -> parseHex (hexByte b +:+ rest) = b :: parseHex rest.
Proof.
  intros Hb. pose proof hexByte_table as T. rewrite forallb_forall in T.
  specialize (T (Z.to_nat b)). rewrite Z2Nat.id in T by lia.
  assert (E : parseHex (hexByte b) = [b]).
  { eapply bool_decide_eq_true_1. apply T, in_seq. lia. }
  unfold hexByte in *. rewrite !append_cons, append_nil.
  cbn [parseHex] in *. now injection E as ->.
Qed.

Lemma parseHex_lowercaseHex (bytes : list Z) :
  Forall (fun b => 0 <= b < 256) bytes -> parseHex (lowercaseHex bytes) = bytes.
Proof.
  induction 1 as [|b bytes Hb _ IH]; [reflexivity|].
  change (lowercaseHex (b :: bytes)) with (hexByte b +:+ lowercaseHex bytes).
  now rewrite parseHex_hexByte, IH.
Qed.

(** X12. The hexadecimal string of [hashString] reads back as the bytes
    of the digest, two characters a byte, thanks to the padding; so two
    inputs have the same [hashString] exactly when they have the same
    SHA-256 digest, and comparing the strings, as [verifyPIN] does,
    compares the digests. *)
Theorem hashString_reads_back (input : string) :
  parseHex (hashUtils.hashString input)
  = SubtleCrypto.digest_SHA256 (JS.TextEncoder_encode input)
  /\ forall other,
      hashUtils.hashString input = hashUtils.hashString other
      <-> SubtleCrypto.digest_SHA256 (JS.TextEncoder_encode input)
          = SubtleCrypto.digest_SHA256 (JS.TextEncoder_encode other).
Proof.
  assert (R : forall s,
             parseHex (hashUtils.hashString s)
             = SubtleCrypto.digest_SHA256 (JS.TextEncoder_encode s)).
  { intros s. unfold hashUtils.hashString.
    rewrite join_rendering by apply digest_range.
    apply parseHex_lowercaseHex, digest_range. }
  split; [apply R|]. intros other. split.
  - intros E. rewrite <- !R. now rewrite E.
  - intros E. unfold hashUtils.hashString. now rewrite E.
Qed.

(* ===================================================================== *)
(** * Further properties of the background listener *)
(* ===================================================================== *)

(** X13. The listener only reads: whatever the message and whatever
    storage does, it changes no record and shows no alert; for an action
    other than "fetchBlockedAuthors" it returns without keeping the
    channel open, sends nothing and does not touch the database.  The
    list it serves is not behind the PIN: with storage at work it answers
    with the authors, whatever calls on the PIN went before. *)
Theorem listener_only_reads (message : background.Message) (w : World) :
  frame w (snd (background.onMessage message w))
  /\ (background.action message <> "fetchBlockedAuthors" ->
      background.onMessage message w = (background.mkHandled false [], w))
  /\ (forall calls,
         background.action message = "fetchBlockedAuthors" ->
         healthy w = true ->
         forallb (fun c => negb (writesAuthors c)) calls = true ->
         fst (background.onMessage message (after_all calls w))
         = background.mkHandled true [background.mkResponse (authorList w)]).
Proof.
  split; [|split].
  - unfold background.onMessage.
    destruct (String.eqb _ _); [|apply frame_refl].
    destruct (getAuthors_any w) as [F _].
    change (indexedDBService.getAuthors w) with (background.getAuthors w) in F.
    now destruct (background.getAuthors w) as [[A|e|] w'].
  - intros Hne. unfold background.onMessage.
    apply String.eqb_neq in Hne. now rewrite Hne.
  - intros calls Ea H Hc. unfold background.onMessage. rewrite Ea, String.eqb_refl.
    destruct (getAuthors_healthy _ (after_all_healthy calls w H)) as (w' & E & _).
    change (indexedDBService.getAuthors (after_all calls w))
      with (background.getAuthors (after_all calls w)) in E.
    rewrite E. cbn [fst]. now rewrite (after_all_same_authors calls w Hc).
Qed.

Lemma listener_only_reads_witness :
  let w := after fresh (AddAuthor "A") in
  background.action (background.mkMessage "ping") <> "fetchBlockedAuthors"
  /\ background.onMessage (background.mkMessage "ping") w
     = (background.mkHandled false [], w)
  /\ healthy w = true
  /\ fst (background.onMessage (background.mkMessage "fetchBlockedAuthors")
            (after_all [SetPIN "123456"; VerifyPIN "000000"] w))
     = background.mkHandled true [background.mkResponse [mkAuthor 1 "a"]].
Proof.
  intros w.
  assert (Hne : background.action (background.mkMessage "ping")
                <> "fetchBlockedAuthors") by discriminate.
  assert (H : healthy w = true) by reflexivity.
  split; [exact Hne|]. split.
  { destruct (listener_only_reads (background.mkMessage "ping") w) as (_ & A & _).
    exact (A Hne). }
  split; [exact H|].
  destruct (listener_only_reads (background.mkMessage "fetchBlockedAuthors") w)
    as (_ & _ & B).
  exact (B [SetPIN "123456"; VerifyPIN "000000"] eq_refl H eq_refl).
Defined.

(* ===================================================================== *)
(** * Properties of the views *)
(* ===================================================================== *)

(** X14. The log-in handler asks for the state "app" only when the digest
    of the PIN entered is the stored one, whatever storage does, and for
    no other state; it writes nothing.  With storage at work it asks for
    "app" exactly then, and otherwise shows "Invalid PIN!" and leaves the
    state alone. *)
Theorem handleLogin_needs_the_PIN (pin : string) (w : World) :
  (forall state,
      fst (views.handleLogin pin w) = Resolved (Some state) ->
      state = "app" /\ storedDigest w = Some (hashUtils.hashString pin))
  /\ authorList (snd (views.handleLogin pin w)) = authorList w
  /\ settingsOf (disk (snd (views.handleLogin pin w))) = settingsOf (disk w)
  /\ (healthy w = true ->
      exists w',
        views.handleLogin pin w
        = (Resolved (if bool_decide (storedDigest w = Some (hashUtils.hashString pin))
                     then Some "app" else None), w')
        /\ alerts w'
           = alerts w
             ++ (if bool_decide (storedDigest w = Some (hashUtils.hashString pin))
                 then [] else ["Invalid PIN!"])).
Proof.
  unfold views.handleLogin, views.submitPIN.
  destruct (verifyPIN_any pin w) as [(Fa & Fs & Fl) Hv].
  split; [|split; [|split]].
  - intros state. unfold bind.
    destruct (indexedDBService.verifyPIN pin w) as [[[]|e|] w1]; cbn;
      intros E; try discriminate.
    injection E as <-. auto.
  - unfold bind.
    now destruct (indexedDBService.verifyPIN pin w) as [[[]|e|] w1].
  - unfold bind.
    now destruct (indexedDBService.verifyPIN pin w) as [[[]|e|] w1].
  - intros H. destruct (verifyPIN_healthy pin w H) as (c & w1 & E & _ & _ & (_ & _ & El)).
    unfold bind. rewrite E.
    destruct (bool_decide _); cbn.
    + exists w1. split; [reflexivity|]. now rewrite app_nil_r.
    + eexists. split; [reflexivity|]. cbn. now rewrite El.
Qed.

Lemma handleLogin_needs_the_PIN_witness :
  healthy pinned = true
  /\ fst (views.handleLogin "123456" pinned) = Resolved (Some "app")
  /\ fst (views.handleLogin "654321" pinned) = Resolved None
  /\ alerts (snd (views.handleLogin "654321" pinned)) = ["Invalid PIN!"].
Proof.
  assert (H : healthy pinned = true) by (vm_compute; reflexivity).
  split; [exact H|].
  destruct (handleLogin_needs_the_PIN "123456" pinned) as (_ & _ & _ & A).
  destruct (handleLogin_needs_the_PIN "654321" pinned) as (_ & _ & _ & B).
  destruct (A H) as (w1 & E1 & _). destruct (B H) as (w2 & E2 & L2).
  split; [rewrite E1; vm_compute; reflexivity|].
  split; [rewrite E2; vm_compute; reflexivity|].
  rewrite E2. cbn [snd]. rewrite L2. vm_compute. reflexivity.
Defined.

(** X15. The handler of the set-PIN view stores a PIN only if it is six
    decimal digits and equal to its confirmation: for any other input it
    only shows the alert of refusal and does not touch the database; when
    it asks for a state, the state is "login" and the stored digest is
    that of the PIN; with storage at work and such an input it does so
    and shows "Pin added successfully!".  The save button is enabled by
    [validatePIN] for exactly the inputs the handler accepts. *)
Theorem handlePINConfirmation_stores_only_valid_PINs
    (pinValue confirmPinValue : string) (w : World) :
  (views.sixDigits pinValue && String.eqb pinValue confirmPinValue = false ->
   views.handlePINConfirmation pinValue confirmPinValue w
   = (Resolved None,
      snd (alert "PINs do not match or do not meet the required format." w)))
  /\ (forall state,
         fst (views.handlePINConfirmation pinValue confirmPinValue w)
         = Resolved (Some state) ->
         state = "login"
         /\ views.sixDigits pinValue = true
         /\ pinValue = confirmPinValue
         /\ storedDigest (snd (views.handlePINConfirmation pinValue confirmPinValue w))
            = Some (hashUtils.hashString pinValue))
  /\ (healthy w = true ->
      views.sixDigits pinValue = true ->
      pinValue = confirmPinValue ->
      exists w',
        views.handlePINConfirmation pinValue confirmPinValue w
        = (Resolved (Some "login"), w')
        /\ storedDigest w' = Some (hashUtils.hashString pinValue)
        /\ alerts w' = alerts w ++ ["Pin added successfully!"])
  /\ (views.disabled (views.validatePIN pinValue confirmPinValue) = false
      <-> views.sixDigits pinValue && String.eqb pinValue confirmPinValue = true).
Proof.
  unfold views.handlePINConfirmation, views.validatePIN.
  split; [|split; [|split]].
  - intros ->. reflexivity.
  - intros state.
    destruct (views.sixDigits pinValue && String.eqb pinValue confirmPinValue)
      eqn:Hv; [|discriminate].
    apply andb_true_iff in Hv as [H6 He]. apply String.eqb_eq in He.
    unfold bind.
    destruct (indexedDBService.setPIN pinValue w) as [[[]|e|] w1] eqn:Es;
      cbn; intros E; try discriminate.
    injection E as <-.
    destruct (setPIN_resolved _ _ _ Es) as (c & _ & _ & Er).
    repeat split; auto. unfold storedDigest. cbn. now rewrite Er.
  - intros H H6 He. rewrite H6, <- He, String.eqb_refl. cbn [andb].
    destruct (setPIN_healthy pinValue w H) as (c & w1 & E & _ & _ & _ & El & Es).
    unfold bind. rewrite E. eexists. split; [reflexivity|]. split.
    + apply (storedDigest_after_put _ w). exact Es.
    + cbn. now rewrite El.
  - cbn. rewrite negb_false_iff. reflexivity.
Qed.

Lemma handlePINConfirmation_stores_only_valid_PINs_witness :
  (views.sixDigits "12345" && String.eqb "12345" "12345" = false
   /\ fst (views.handlePINConfirmation "12345" "12345" fresh) = Resolved None
   /\ disk (snd (views.handlePINConfirmation "12345" "12345" fresh)) = disk fresh)
  /\ (healthy fresh = true
      /\ views.sixDigits "123456" = true
      /\ exists w',
          views.handlePINConfirmation "123456" "123456" fresh
          = (Resolved (Some "login"), w')
          /\ storedDigest w' = Some (hashUtils.hashString "123456")).
Proof.
  destruct (handlePINConfirmation_stores_only_valid_PINs "12345" "12345" fresh)
    as (A & _).
  destruct (handlePINConfirmation_stores_only_valid_PINs "123456" "123456" fresh)
    as (_ & _ & B & _).
  assert (Hbad : views.sixDigits "12345" && String.eqb "12345" "12345" = false)
    by reflexivity.
  assert (H : healthy fresh = true) by reflexivity.
  assert (H6 : views.sixDigits "123456" = true) by reflexivity.
  split.
  - split; [exact Hbad|]. rewrite (A Hbad). split; reflexivity.
  - split; [exact H|]. split; [exact H6|].
    destruct (B H H6 eq_refl) as (w' & E & Ed & _). exists w'. auto.
Defined.



(** X17. With storage at work the delete button of a listed author
    deletes that author and refreshes the list: the list then shows the
    authors without it, one fewer.  When the deletion rejects, the
    callback is not called: the list is not refreshed and the rejection
    goes to the caller.  The refresh is not awaited: once the deletion
    has resolved the button's promise resolves, whatever becomes of the
    refresh. *)
Theorem deleteButton_refreshes_without_the_author (author : Author) (w : World) :
  (healthy w = true ->
   author ∈ authorList w ->
   exists w',
     views.deleteButton author w
     = (Resolved
          (Resolved
             (views.listed (filter (fun b => a_id b ≠ a_id author) (authorList w)))),
        w')
     /\ authorList w' = filter (fun b => a_id b ≠ a_id author) (authorList w)
     /\ (author ∉ authorList w')
     /\ length (authorList w) = S (length (authorList w')))
  /\ (forall e,
         fst (indexedDBService.deleteAuthor (a_id author) w) = Rejected e ->
         views.deleteButton author w
         = (Rejected e, snd (indexedDBService.deleteAuthor (a_id author) w)))
  /\ (fst (indexedDBService.deleteAuthor (a_id author) w) = Resolved tt ->
      exists refreshed, fst (views.deleteButton author w) = Resolved refreshed).
Proof.
  unfold views.deleteButton, buttonLogic.deleteBtnFnc, bind. split; [|split].
  - intros H Hin.
    destruct (deleteAuthor_healthy (a_id author) w H)
      as (c & w1 & E & _ & H1 & Ea & _).
    rewrite E. unfold views.refreshAuthorsList.
    destruct (getAuthors_healthy w1 H1) as (w2 & Eg & _ & (Fa & _)).
    rewrite Eg, Ea. exists w2. split; [reflexivity|].
    rewrite Fa, Ea. split; [reflexivity|]. split.
    + intros Hf. apply list_elem_of_filter in Hf as [Hne _]. now apply Hne.
    + apply filter_key_length; [apply healthy_keys_NoDup, H | exact Hin].
  - intros e E.
    destruct (indexedDBService.deleteAuthor (a_id author) w) as [[[]|e'|] w1];
      cbn in *; try discriminate. now injection E as ->.
  - intros E.
    destruct (indexedDBService.deleteAuthor (a_id author) w) as [[[]|e'|] w1];
      cbn in *; try discriminate. eexists. reflexivity.
Qed.

Lemma deleteButton_refreshes_without_the_author_witness :
  let w := after_all [AddAuthor "A"; AddAuthor "B"] fresh in
  healthy w = true
  /\ mkAuthor 1 "a" ∈ authorList w
  /\ fst (views.deleteButton (mkAuthor 1 "a") w)
     = Resolved (Resolved (views.listed [mkAuthor 2 "b"])).
Proof.
  intros w.
  assert (H : healthy w = true) by reflexivity.
  assert (Hin : mkAuthor 1 "a" ∈ authorList w) by apply list_elem_of_here.
  split; [exact H|]. split; [exact Hin|].
  destruct (deleteButton_refreshes_without_the_author (mkAuthor 1 "a") w) as [A _].
  destruct (A H Hin) as (w' & E & _). rewrite E. reflexivity.
Defined.

(** X18. The handler of the save button does nothing for an empty name,
    and never rejects: an error of [addAuthor] ends in its [catch].  With
    storage at work and a name that is not empty the list it refreshes
    shows the stored authors: for a new name the old ones followed by
    [{ name: lowercase(name) }]; for a name that is there already the list
    as it was, after the alert of [addAuthor], and the handler goes on as
    after a saved author all the same. *)
Theorem handleSaveAuthor_never_rejects (authorName : string) (w : World) :
  (authorName = "" -> views.handleSaveAuthor authorName w = (Resolved views.ignored, w))
  /\ (forall e, fst (views.handleSaveAuthor authorName w) <> Rejected e)
  /\ (healthy w = true ->
      authorName <> "" ->
      exists w',
        views.handleSaveAuthor authorName w
        = (Resolved (views.saved (Resolved (views.listed (authorList w')))), w')
        /\ if known authorName (authorList w)
           then authorList w' = authorList w
                /\ alerts w' = alerts w ++ ["Author already exists: " +:+ authorName]
           else (exists key,
                    authorList w'
                    = authorList w ++ [mkAuthor key (JS.toLowerCase authorName)])
                /\ alerts w' = alerts w).
Proof.
  split; [|split].
  - intros ->. reflexivity.
  - intros e. destruct authorName as [|ch rest]; [discriminate|].
    unfold views.handleSaveAuthor.
    destruct (indexedDBService.addAuthor (String ch rest) w) as [[r|e'|] w1];
      discriminate.
  - intros H Hne. destruct authorName as [|ch rest]; [now contradiction Hne|].
    unfold views.handleSaveAuthor.
    destruct (addAuthor_healthy (String ch rest) w H)
      as (c & w1 & _ & H1 & _ & Hcase).
    unfold views.refreshAuthorsList.
    destruct (getAuthors_healthy w1 H1) as (w2 & Eg & _ & (Fa & _ & Fl)).
    destruct (known (String ch rest) (authorList w)).
    + destruct Hcase as (E & Ea & El). rewrite E, Eg. cbn [fst snd].
      exists w2. rewrite Fa, Fl. auto.
    + destruct Hcase as (key & E & Ea & El & _). rewrite E, Eg. cbn [fst snd].
      exists w2. rewrite Fa, Fl. eauto.
Qed.

Lemma handleSaveAuthor_never_rejects_witness :
  let w := after fresh (AddAuthor "PewDiePie") in
  healthy w = true
  /\ "pewdiepie" <> ""
  /\ exists w',
      views.handleSaveAuthor "pewdiepie" w
      = (Resolved (views.saved (Resolved (views.listed [mkAuthor 1 "pewdiepie"]))), w')
      /\ alerts w' = ["Author already exists: pewdiepie"].
Proof.
  intros w.
  assert (H : healthy w = true) by reflexivity.
  assert (Hne : "pewdiepie" <> "") by discriminate.
  split; [exact H|]. split; [exact Hne|].
  destruct (handleSaveAuthor_never_rejects "pewdiepie" w) as (_ & _ & A).
  destruct (A H Hne) as (w' & E & Hcase).
  change (known "pewdiepie" (authorList w)) with true in Hcase.
  destruct Hcase as [Ea El]. exists w'. rewrite E, Ea, El. split; reflexivity.
Defined.

(* ===================================================================== *)
(** * Properties across the modules *)
(* ===================================================================== *)

Lemma keys_between_sorted (lo hi : Z) (l : list Author) :
  keys_between lo l hi = true ->
  StronglySorted Z.lt (map a_id l) /\ Forall (fun a => lo < a_id a) l.
Proof.
  revert lo. induction l as [|a l IH]; simpl; intros lo H.
  - split; constructor.
  - apply andb_true_iff in H as [H1 H2]. apply Z.ltb_lt in H1.
    destruct (IH _ H2) as [Hs Hl]. split.
    + constructor; [exact Hs|].
      apply Forall_forall. intros x Hx.
      apply list_elem_of_In, in_map_iff in Hx as (b & <- & Hb).
      rewrite Forall_forall in Hl. apply Hl. now apply list_elem_of_In.
    + constructor; [exact H1|].
      eapply Forall_impl; [exact Hl|]. simpl. intros b Hb. lia.
Qed.

Lemma healthy_keys_sorted (w : World) :
  healthy w = true ->
  StronglySorted Z.lt (map a_id (authorList w))
  /\ Forall (fun a => 0 < a_id a) (authorList w).
Proof.
  unfold healthy, keys_ok, authorList, authorsOf. intros H.
  apply andb_true_iff in H as [H _]. apply andb_true_iff in H as [_ H].
  destruct (authorStore (disk w)) as [st|]; [|split; constructor].
  eapply keys_between_sorted, H.
Qed.

(** X19. What [getAuthors] lists in a store that the module has filled
    from a new machine, after any calls: whatever storage does, when it
    resolves, no two authors have the same lowercase name and every name
    is in lower case; and when no request fails it resolves, with the
    authors in the order of their keys, which are positive and
    ascending. *)
Theorem getAuthors_lists_what_addAuthor_stored (calls : list Call) :
  (forall fs l,
      fst (indexedDBService.getAuthors (after_all calls (set_fates fs fresh)))
      = Resolved l ->
      unique_names l /\ lowercased l)
  /\ (exists l,
         fst (indexedDBService.getAuthors (after_all calls fresh)) = Resolved l
         /\ StronglySorted Z.lt (map a_id l)
         /\ Forall (fun a => 0 < a_id a) l).
Proof.
  split.
  - intros fs l E.
    destruct (getAuthors_any (after_all calls (set_fates fs fresh))) as [_ Hg].
    rewrite E in Hg. subst l. split.
    + apply after_all_unique_names. constructor.
    + apply after_all_lowercased. constructor.
  - pose proof (reachable_healthy calls) as H.
    destruct (getAuthors_healthy _ H) as (w' & E & _).
    exists (authorList (after_all calls fresh)). split; [now rewrite E|].
    now apply healthy_keys_sorted.
Qed.

Lemma handleLogin_healthy (pin : string) (w : World) :
  healthy w = true ->
  fst (views.handleLogin pin w)
  = Resolved (if bool_decide (storedDigest w = Some (hashUtils.hashString pin))
              then Some "app" else None).
Proof.
  intros H. destruct (verifyPIN_healthy pin w H) as (c & w1 & E & _).
  unfold views.handleLogin, views.submitPIN, bind. rewrite E.
  now destruct (bool_decide _).
Qed.

Lemma handlePINConfirmation_healthy (pin : string) (w : World) :
  healthy w = true ->
  views.sixDigits pin = true ->
  exists w1,
    views.handlePINConfirmation pin pin w = (Resolved (Some "login"), w1)
    /\ healthy w1 = true
    /\ storedDigest w1 = Some (hashUtils.hashString pin).
Proof.
  intros H H6.
  destruct (setPIN_healthy pin w H) as (c & w1 & E & _ & H1 & _ & _ & Es).
  unfold views.handlePINConfirmation.
  rewrite H6, String.eqb_refl. cbn [andb]. unfold bind. rewrite E.
  eexists. split; [reflexivity|]. split; [exact H1|].
  apply (storedDigest_after_put _ w). exact Es.
Qed.

(** X20. With storage at work the views agree on the PIN: a six-digit PIN
    saved in the set-PIN view logs in, and a PIN of another digest does
    not; after the change-PIN view has changed it, given the PIN itself
    as the current one, the new PIN logs in and the old one no longer
    does, unless it has the digest of the new one. *)
Theorem views_PIN_round_trip (p p2 : string) (w : World) :
  healthy w = true ->
  views.sixDigits p = true ->
  exists w1 w2,
    views.handlePINConfirmation p p w = (Resolved (Some "login"), w1)
    /\ fst (views.handleLogin p w1) = Resolved (Some "app")
    /\ (forall q,
           hashUtils.hashString q <> hashUtils.hashString p ->
           fst (views.handleLogin q w1) = Resolved None)
    /\ views.handleChangePIN p p2 w1 = (Resolved (Some "login"), w2)
    /\ fst (views.handleLogin p2 w2) = Resolved (Some "app")
    /\ (hashUtils.hashString p <> hashUtils.hashString p2 ->
        fst (views.handleLogin p w2) = Resolved None).
Proof.
  intros H H6.
  destruct (handlePINConfirmation_healthy p w H H6) as (w1 & E1 & H1 & Ed1).
  destruct (verifyPIN_healthy p w1 H1) as (c & w1' & Ev & _ & H1' & _).
  rewrite Ed1, bool_decide_eq_true_2 in Ev by reflexivity.
  destruct (setPIN_healthy p2 w1' H1') as (c2 & w2 & E2 & _ & H2 & _ & _ & Es2).
  pose proof (storedDigest_after_put _ _ _ Es2) as Ed2.
  exists w1. eexists. split; [exact E1|]. split; [|split; [|split; [|split]]].
  - rewrite (handleLogin_healthy p w1 H1), Ed1.
    now rewrite bool_decide_eq_true_2.
  - intros q Hq. rewrite (handleLogin_healthy q w1 H1), Ed1.
    rewrite bool_decide_eq_false_2; [reflexivity|]. intros E. injection E as E. auto.
  - unfold views.handleChangePIN, bind. rewrite Ev. cbn [negb]. rewrite E2.
    reflexivity.
  - rewrite handleLogin_healthy by exact H2.
    unfold storedDigest in *. cbn [snd alert disk]. rewrite Ed2.
    now rewrite bool_decide_eq_true_2.
  - intros Hne. rewrite handleLogin_healthy by exact H2.
    unfold storedDigest in *. cbn [snd alert disk]. rewrite Ed2.
    rewrite bool_decide_eq_false_2; [reflexivity|]. intros E. injection E as E. auto.
Qed.

Lemma views_PIN_round_trip_witness :
  healthy fresh = true
  /\ views.sixDigits "123456" = true
  /\ exists w1 w2,
      views.handlePINConfirmation "123456" "123456" fresh
      = (Resolved (Some "login"), w1)
      /\ fst (views.handleLogin "123456" w1) = Resolved (Some "app")
      /\ views.handleChangePIN "123456" "654321" w1 = (Resolved (Some "login"), w2)
      /\ fst (views.handleLogin "654321" w2) = Resolved (Some "app").
Proof.
  assert (H : healthy fresh = true) by reflexivity.
  assert (H6 : views.sixDigits "123456" = true) by reflexivity.
  split; [exact H|]. split; [exact H6|].
  destruct (views_PIN_round_trip "123456" "654321" fresh H H6)
    as (w1 & w2 & E1 & L1 & _ & E2 & L2 & _).
  exists w1, w2. auto.
Defined.

(** X21. A failed read when the popup starts lets the PIN be replaced
    without the old one: when the database is open, the read of
    [isPINSet] fails and storage works from then on, the popup starts in
    the state "setPIN" whether a PIN is set or not, and the handler of
    that view then stores the digest of any six-digit PIN given twice,
    over the one that was there. *)
Theorem failed_read_at_startup_lets_the_PIN_be_replaced
    (p : string) (c : Connection) (name : string) (rest : list Fate)
    (w w1 : World) :
  indexedDBService.openDatabase w = (Resolved c, w1) ->
  fates w1 = Fails name :: rest ->
  healthy (set_fates rest w1) = true ->
  views.sixDigits p = true ->
  popup.initialState w = (Resolved "setPIN", set_fates rest w1)
  /\ exists w2,
      views.handlePINConfirmation p p (set_fates rest w1)
      = (Resolved (Some "login"), w2)
      /\ storedDigest w2 = Some (hashUtils.hashString p)
      /\ fst (views.handleLogin p w2) = Resolved (Some "app").
Proof.
  intros Eo Ef H H6.
  pose proof (openDatabase_resolved c w w1 Eo) as Edb.
  destruct (healthy_has_stores c (set_fates rest w1) H Edb) as [_ Hs].
  assert (Ec : contains (disk w1) settings = true).
  { unfold has_stores in Hs. now apply andb_true_iff in Hs as [_ Hs]. }
  split.
  - unfold popup.initialState, indexedDBService.isPINSet, bind, objectStore,
      promise, request, next_fate. now rewrite Eo, Ec, Ef.
  - destruct (handlePINConfirmation_healthy p _ H H6) as (w2 & E & H2 & Ed).
    exists w2. split; [exact E|]. split; [exact Ed|].
    rewrite (handleLogin_healthy p w2 H2), Ed. now rewrite bool_decide_eq_true_2.
Qed.

Lemma failed_read_at_startup_lets_the_PIN_be_replaced_witness :
  indexedDBService.openDatabase unreadable = (Resolved 0%nat, unreadable)
  /\ storedDigest unreadable = Some (hashUtils.hashString "123456")
  /\ fst (popup.initialState unreadable) = Resolved "setPIN"
  /\ exists w2,
      views.handlePINConfirmation "000000" "000000" (set_fates [] unreadable)
      = (Resolved (Some "login"), w2)
      /\ storedDigest w2 = Some (hashUtils.hashString "000000").
Proof.
  assert (Eo : indexedDBService.openDatabase unreadable
               = (Resolved 0%nat, unreadable)) by (vm_compute; reflexivity).
  assert (Ef : fates unreadable = [Fails "UnknownError"])
    by (vm_compute; reflexivity).
  assert (H : healthy (set_fates [] unreadable) = true)
    by (vm_compute; reflexivity).
  assert (H6 : views.sixDigits "000000" = true) by reflexivity.
  destruct (failed_read_at_startup_lets_the_PIN_be_replaced
              "000000" _ _ _ _ _ Eo Ef H H6) as (Ei & w2 & E & Ed & _).
  split; [exact Eo|]. split; [vm_compute; reflexivity|].
  split; [rewrite Ei; reflexivity|]. exists w2. split; [exact E | exact Ed].
Defined.
